(** * os-find: a shallow embedding of [main.cpp] and its specification

    The program walks a directory tree, filters the non-directory
    entries through a conjunction of optional predicates and prints
    the matching paths or hands them to an external executable.

    The embedding follows [main.cpp] function by function.  System
    calls are oracles (section variables), everything the program
    does to the outside world is recorded as an event of a trace, and
    the C++ exception [std::invalid_argument] is the left summand of a
    sum type.  Integer types are those of LP64 Linux: [ino_t],
    [nlink_t] and [uint64_t] are 64-bit unsigned, [off_t] is 64-bit
    signed. *)

From Stdlib Require Import ZArith List String Ascii Bool Lia.
Import ListNotations.
Local Open Scope string_scope.
Local Open Scope Z_scope.

(** ** Machine integers *)

Definition ULLONG_MAX : Z := 2 ^ 64 - 1.

(** Conversion to a 64-bit unsigned type. *)
Definition wrap_u64 (z : Z) : Z := z mod 2 ^ 64.

(** Conversion [uint64_t -> off_t] (two's complement). *)
Definition wrap_s64 (z : Z) : Z := (z + 2 ^ 63) mod 2 ^ 64 - 2 ^ 63.

(** ** C strings *)

Definition NUL : ascii := "000"%char.
Definition nl : string := String "010"%char "".
Definition tab : string := String "009"%char "".

(** [value[n]] on a NUL-terminated string. *)
Fixpoint char_at (s : string) (n : nat) : ascii :=
  match s, n with
  | EmptyString, _ => NUL
  | String c _, O => c
  | String _ r, S n' => char_at r n'
  end.

(** [value + n]: pointer arithmetic inside the string. *)
Fixpoint advance (s : string) (n : nat) {struct n} : string :=
  match n, s with
  | O, _ => s
  | S n', String _ r => advance r n'
  | S _, EmptyString => EmptyString
  end.

Definition strlen (s : string) : nat := String.length s.

(** [std::strcmp(a, b) == 0] *)
Definition streq (a b : string) : bool := String.eqb a b.

(** What a [const char*] shows of a [std::string]: the characters
    before its first NUL. *)
Fixpoint c_str (s : string) : string :=
  match s with
  | EmptyString => EmptyString
  | String c r => if Ascii.eqb c NUL then EmptyString else String c (c_str r)
  end.

(** [isdigit] and [isspace] of the C locale. *)
Definition isdigit (c : ascii) : bool :=
  let n := N_of_ascii c in ((48 <=? n) && (n <=? 57))%N.

Definition isspace (c : ascii) : bool :=
  let n := N_of_ascii c in ((n =? 32) || ((9 <=? n) && (n <=? 13)))%N.

Definition digit_val (c : ascii) : Z := Z.of_N (N_of_ascii c) - 48.

(** ** [std::stoull]

    [std::stoull(str)] is [strtoull(str, &end, 10)]: leading white
    space is skipped, one optional sign is read, then the longest run
    of decimal digits.  No digit at all is [std::invalid_argument], a
    magnitude above [ULLONG_MAX] is [std::out_of_range], a minus sign
    negates in 64-bit unsigned arithmetic, and whatever follows the
    digits is left unread. *)

Fixpoint skip_space (s : string) : string :=
  match s with
  | String c r => if isspace c then skip_space r else s
  | EmptyString => s
  end.

Fixpoint digits_value (acc : Z) (s : string) : Z :=
  match s with
  | String c r => if isdigit c then digits_value (10 * acc + digit_val c) r else acc
  | EmptyString => acc
  end.

Inductive stoull_result : Type :=
| converted (v : Z)
| invalid_argument
| out_of_range.

Definition read_sign (s : string) : bool * string :=
  match s with
  | String c r =>
      if Ascii.eqb c "-" then (true, r)
      else if Ascii.eqb c "+" then (false, r)
      else (false, s)
  | EmptyString => (false, s)
  end.

Definition stoull (str : string) : stoull_result :=
  let (negative, body) := read_sign (skip_space str) in
  if isdigit (char_at body 0) then
    let v := digits_value 0 body in
    if v >? ULLONG_MAX then out_of_range
    else converted (if negative then wrap_u64 (- v) else v)
  else invalid_argument.

(** [e.what()] of the exceptions thrown by [std::stoull] (libstdc++). *)
Definition stoull_what : string := "stoull".

(** ** [parse_num]

    A thrown [std::invalid_argument(msg)] is [inl msg]. *)

Definition parse_num (value option : string) : string + Z :=
  match stoull value with
  | converted v => inr v
  | invalid_argument | out_of_range =>
      inl ("Value of " ++ option ++ " is invalid: " ++ value ++ ", " ++ stoull_what)
  end.

(** ** [template<typename T> class optional]

    [value] is default-initialised, so an optional that was never
    [set] holds whatever the memory held; [get] asserts [is_set] and
    a failed assertion ([None]) aborts the process. *)

Module optional.
Record t (T : Type) : Type := mk { value : T; is_set : bool }.
Arguments mk {T} _ _.
Arguments value {T} _.
Arguments is_set {T} _.

Definition fresh {T : Type} (indeterminate : T) : t T :=
  mk indeterminate false.

Definition get {T : Type} (o : t T) : option T :=
  if is_set o then Some (value o) else None.

Definition set {T : Type} (new_val : T) (o : t T) : t T :=
  mk new_val true.

Definition empty {T : Type} (o : t T) : bool := negb (is_set o).
End optional.

(** ** [class configuration] *)

(** [enum class size_type : char].  An object of this type that was
    never assigned can hold a byte that is none of the three
    enumerators: [no_enumerator]. *)
Inductive size_type : Type :=
| EQUAL
| GREATER
| LESS
| no_enumerator (byte : ascii).

Record configuration : Type := mkconfig {
  help : bool;
  inode : optional.t Z;
  name : option string;
  size : optional.t (Z * size_type);
  nlinks : optional.t Z;
  executable : option string
}.

(** What the uninitialised objects of the program hold: the [value]
    member of the three optionals and the local [type] of
    [get_size]. *)
Record indeterminate : Type := mkindet {
  junk_inode : Z;
  junk_size : Z * size_type;
  junk_nlinks : Z;
  junk_type : size_type
}.

(** The first half of [get_size]: the sign character decides the
    comparator and how many characters to step over.  [type] is
    declared without an initialiser and is assigned in the ['+'] and
    ['-'] cases only.  The message of the exception is read through
    [what()], a C string: for an empty value the character appended
    is the closing NUL and does not show. *)
Definition get_size_sign (uninit : size_type) (value : string)
  : string + (nat * size_type) :=
  let pos := 0%nat in
  let type := uninit in
  let c := char_at value 0 in
  if negb (isdigit c) then
    if Ascii.eqb c "+" then inr (S pos, GREATER)
    else if Ascii.eqb c "-" then inr (S pos, LESS)
    else if Ascii.eqb c "=" then inr (S pos, type)
    else inl (c_str ("Value of size is invalid: Unknown symbol " ++ String c ""))
  else inr (pos, type).

Definition get_size (uninit : size_type) (value : string)
  : string + (Z * size_type) :=
  match get_size_sign uninit value with
  | inl msg => inl msg
  | inr (pos, type) =>
      if (strlen (advance value pos) =? 0)%nat || Ascii.eqb (char_at value pos) "-"
      then inl ("Value of size is invalid:" ++ value)
      else
        match parse_num (advance value pos) "-size" with
        | inl msg => inl msg
        | inr n => inr (wrap_s64 n, type)
        end
  end.

Definition with_help (c : configuration) : configuration :=
  mkconfig true (inode c) (name c) (size c) (nlinks c) (executable c).
Definition with_inode (v : Z) (c : configuration) : configuration :=
  mkconfig (help c) (optional.set v (inode c)) (name c) (size c) (nlinks c) (executable c).
Definition with_name (v : string) (c : configuration) : configuration :=
  mkconfig (help c) (inode c) (Some v) (size c) (nlinks c) (executable c).
Definition with_size (v : Z * size_type) (c : configuration) : configuration :=
  mkconfig (help c) (inode c) (name c) (optional.set v (size c)) (nlinks c) (executable c).
Definition with_nlinks (v : Z) (c : configuration) : configuration :=
  mkconfig (help c) (inode c) (name c) (size c) (optional.set v (nlinks c)) (executable c).
Definition with_executable (v : string) (c : configuration) : configuration :=
  mkconfig (help c) (inode c) (name c) (size c) (nlinks c) (Some v).

(** The members as their default initialisers leave them. *)
Definition fresh_configuration (u : indeterminate) : configuration :=
  mkconfig false (optional.fresh (junk_inode u)) None
           (optional.fresh (junk_size u)) (optional.fresh (junk_nlinks u)) None.

(** The loop [for (int i = 2; i < argc; i += 2)] of the constructor,
    on the arguments from [argv[2]] on. *)
Fixpoint scan_options (u : indeterminate) (args : list string) (c : configuration)
  : string + configuration :=
  match args with
  | [] => inr c
  | option :: rest =>
      if streq option "-help" then inr (with_help c)
      else
        match rest with
        | [] => inl ("Value of " ++ option ++ " wasn't found")
        | value :: rest' =>
            if streq option "-inum" then
              match parse_num value option with
              | inl msg => inl msg
              | inr n => scan_options u rest' (with_inode (wrap_u64 n) c)
              end
            else if streq option "-name" then
              scan_options u rest' (with_name value c)
            else if streq option "-size" then
              match get_size (junk_type u) value with
              | inl msg => inl msg
              | inr sz => scan_options u rest' (with_size sz c)
              end
            else if streq option "-nlinks" then
              match parse_num value option with
              | inl msg => inl msg
              | inr n => scan_options u rest' (with_nlinks (wrap_u64 n) c)
              end
            else if streq option "-exec" then
              scan_options u rest' (with_executable value c)
            else inl ("Unknown option " ++ option)
        end
  end.

(** [configuration::configuration(argc, argv)], called with
    [argc >= 2] only. *)
Definition configuration_ctor (u : indeterminate) (argv : list string)
  : string + configuration :=
  if streq (nth 1 argv "") "-help" then inr (with_help (fresh_configuration u))
  else scan_options u (skipn 2 argv) (fresh_configuration u).

Definition is_help (c : configuration) : bool := help c.
Definition get_executable (c : configuration) : option string := executable c.

(** ** The outside world *)

Record stat_t : Type := mkstat { st_ino : Z; st_size : Z; st_nlink : Z }.

Record dirent : Type := mkdirent { d_ino : Z; d_type : Z; d_name : string }.

Definition DT_UNKNOWN : Z := 0.
Definition DT_DIR : Z := 4.
Definition DT_REG : Z := 8.
Definition DT_LNK : Z := 10.

Definition EXIT_SUCCESS : Z := 0.
Definition EXIT_FAILURE : Z := 1.

(** What [opendir] and [readdir] show of a directory: either
    [opendir] fails with an [errno], or the directory yields its
    entries in order and [closedir] succeeds or fails.  Every entry
    comes with what [opendir] would show of [path/d_name]. *)
#[local] Set Warnings "-register-all".
Inductive dir : Type :=
| opendir_fails (errno : Z)
| opened (entries : list (dirent * dir)) (closedir_errno : option Z).

(** Everything the program does that the outside can observe.  A
    [fork] is recorded with what it returned to the parent (the
    [errno] of a failure, or the child's pid), a [waitpid] with the
    [errno] of its failure if it failed, and the events of a child
    process carry its [pid]. *)
Inductive event : Type :=
| ev_stdout (text : string)
| ev_stderr (text : string)
| ev_opendir (path : string)
| ev_closedir (path : string)
| ev_stat (path : string)
| ev_fork (result : Z + Z)
| ev_execve (pid : Z) (file : string) (argv envp : list string)
| ev_exit (pid : Z) (status : Z)
| ev_waitpid (pid : Z) (failure : option Z).

(** ** The monad of the program

    A computation starts with the number of [fork] calls made so far
    and yields its result, the new number and the events it emitted.
    [aborted] is a failed [assert]. *)

Inductive outcome (A : Type) : Type :=
| done (a : A)
| aborted.
Arguments done {A} _.
Arguments aborted {A}.

Definition M (A : Type) : Type := nat -> outcome A * nat * list event.

Definition ret {A : Type} (a : A) : M A := fun n => (done a, n, []).

Definition bind {A B : Type} (m : M A) (f : A -> M B) : M B :=
  fun n =>
    match m n with
    | (done a, n1, t1) =>
        match f a n1 with
        | (r, n2, t2) => (r, n2, (t1 ++ t2)%list)
        end
    | (aborted, n1, t1) => (aborted, n1, t1)
    end.

Definition emit (e : event) : M unit := fun n => (done tt, n, [e]).

Definition abort {A : Type} : M A := fun n => (aborted, n, []).

Declare Scope prog_scope.
Delimit Scope prog_scope with prog.
Notation "x <- m ;; k" := (bind m (fun x => k))
  (at level 61, m at next level, right associativity) : prog_scope.
Notation "m ;; k" := (bind m (fun _ => k))
  (at level 61, right associativity) : prog_scope.
Local Open Scope prog_scope.

Definition trace_of {A : Type} (r : outcome A * nat * list event) : list event := snd r.
Definition result_of {A : Type} (r : outcome A * nat * list event) : outcome A := fst (fst r).
Definition forks_of {A : Type} (r : outcome A * nat * list event) : nat := snd (fst r).

Definition cout (text : string) : M unit := emit (ev_stdout text).
Definition cerr (text : string) : M unit := emit (ev_stderr text).

(** [optional::get] with its assertion. *)
Definition get_asserted {T : Type} (o : optional.t T) : M T :=
  match optional.get o with
  | Some v => ret v
  | None => abort
  end.

(** The text of [print_help]. *)
Definition usage : string :=
  ("Usage : ./os-find path [options]" ++ nl ++
        "Recursively looks for files in given directory with given parameters and prints them to STDOUT" ++ nl ++
        "options:" ++ nl ++
        tab ++ "-inum NUM" ++ tab ++ tab ++ "looks for files with given inode number" ++ nl ++
        tab ++ "-name NAME" ++ tab ++ tab ++ "looks for files with given name" ++ nl ++
        tab ++ "-size [=|-|+]SIZE" ++ tab ++ "looks for files with given size in bytes" ++ nl ++
        tab ++ tab ++ " =" ++ tab ++ tab ++ "  size would be equal to SIZE" ++ nl ++
        tab ++ tab ++ " +" ++ tab ++ tab ++ "  size would be greater than SIZE" ++ nl ++
        tab ++ tab ++ " -" ++ tab ++ tab ++ "  size would be less than SIZE" ++ nl ++
        tab ++ "  If symbol isn't specified '=' will be used." ++ nl ++
        tab ++ "-nlinks NUM" ++ tab ++ tab ++ "looks for file with given number of hard links" ++ nl ++
        tab ++ "-exec PATH" ++ tab ++ tab ++ "results will be provided to executable located at PATH as a single argument" ++ nl ++
        tab ++ "-help" ++ tab ++ tab ++ "shows this message" ++ nl).

Definition print_help : M unit := cout usage.

(** ** The program proper *)

Section Program.

(** [strerror(errno)] *)
Variable strerror : Z -> string.
(** [stat(path, &st)]: the [errno] of a failure, or the record. *)
Variable sys_stat : string -> Z + stat_t.
(** The [n]-th call of [fork()]: the [errno] of a failure, or the
    child's pid. *)
Variable sys_fork : nat -> Z + Z.
(** [execve(file, ...)] in a child: [None] when the image is
    replaced, the [errno] otherwise. *)
Variable sys_execve : string -> option Z.
(** [waitpid(pid, &status, 0)]: [None] when the child was reaped,
    the [errno] otherwise. *)
Variable sys_waitpid : Z -> option Z.

Definition stat (path : string) : M (Z + stat_t) :=
  emit (ev_stat path) ;; ret (sys_stat path).

Definition fork : M (Z + Z) :=
  fun n => (done (sys_fork n), S n, [ev_fork (sys_fork n)]).

Definition waitpid (pid : Z) : M (option Z) :=
  emit (ev_waitpid pid (sys_waitpid pid)) ;; ret (sys_waitpid pid).

Definition show_error (errno : Z) : M unit :=
  cerr ("The following error occurred: " ++ strerror errno ++ nl).

(** [configuration::matches] *)
Definition matches (config : configuration) (file : dirent) (path : string) : M bool :=
  wrong_inode <-
    (if negb (optional.empty (inode config)) then
       v <- get_asserted (inode config) ;;
       ret (negb (v =? d_ino file))
     else ret false) ;;
  if (wrong_inode : bool) then ret false
  else
    if match name config with
       | Some n => negb (streq (d_name file) n)
       | None => false
       end
    then ret false
    else
      r <- stat path ;;
      match r with
      | inl errno =>
          cerr ("Cannot check file " ++ path ++ ": " ++ strerror errno ++ nl) ;;
          ret false
      | inr st =>
          wrong_size <-
            (if negb (optional.empty (size config)) then
               p1 <- get_asserted (size config) ;;
               let value := fst p1 in
               p2 <- get_asserted (size config) ;;
               let type := snd p2 in
               ret match type with
                   | EQUAL => negb (st_size st =? value)
                   | LESS => st_size st >=? value
                   | GREATER => st_size st <=? value
                   | no_enumerator _ => false
                   end
             else ret false) ;;
          if (wrong_size : bool) then ret false
          else
            wrong_nlinks <-
              (if negb (optional.empty (nlinks config)) then
                 v <- get_asserted (nlinks config) ;;
                 ret (negb (st_nlink st =? v))
               else ret false) ;;
            if (wrong_nlinks : bool) then ret false else ret true
      end.

(** The [case 0] branch of [process], run by the child [pid]. *)
Definition child (pid : Z) (args envp : list string) : M unit :=
  emit (ev_execve pid (nth 0 args "") args envp) ;;
  match sys_execve (nth 0 args "") with
  | Some errno => show_error errno ;; emit (ev_exit pid EXIT_FAILURE)
  | None => ret tt
  end.

(** [process]; the argument vector is written without its closing
    [nullptr]. *)
Definition process (config : configuration) (name : string) (envp : list string) : M unit :=
  match get_executable config with
  | Some executable =>
      r <- fork ;;
      match r with
      | inl errno => cerr ("Cannot fork: " ++ strerror errno ++ nl)
      | inr pid =>
          child pid [executable; name] envp ;;
          w <- waitpid pid ;;
          match w with
          | Some errno => show_error errno
          | None => ret tt
          end
      end
  | None => cout (name ++ nl)
  end.

(** [walker::recursive_walk]; the inner [fix] is the [while] loop
    over [readdir]. *)
Fixpoint recursive_walk (config : configuration) (envp : list string)
         (path : string) (d : dir) {struct d} : M unit :=
  emit (ev_opendir path) ;;
  match d with
  | opendir_fails errno =>
      cerr ("Cannot open " ++ path ++ ": " ++ strerror errno ++ nl)
  | opened entries closedir_errno =>
      (fix loop (es : list (dirent * dir)) : M unit :=
         match es with
         | [] => ret tt
         | (entry, sub) :: rest =>
             let full_path := path ++ "/" ++ d_name entry in
             (if d_type entry =? DT_DIR then
                if streq (d_name entry) "." || streq (d_name entry) ".."
                then ret tt
                else recursive_walk config envp full_path sub
              else
                m <- matches config entry full_path ;;
                if (m : bool) then process config full_path envp else ret tt) ;;
             loop rest
         end) entries ;;
      emit (ev_closedir path) ;;
      match closedir_errno with
      | Some errno => cerr ("Cannot close " ++ path ++ ": " ++ strerror errno ++ nl)
      | None => ret tt
      end
  end.

(** One turn of the [while] loop, and the loop, as functions of
    their own. *)
Definition walk_entry (config : configuration) (envp : list string)
           (path : string) (e : dirent * dir) : M unit :=
  let (entry, sub) := e in
  let full_path := path ++ "/" ++ d_name entry in
  if d_type entry =? DT_DIR then
    if streq (d_name entry) "." || streq (d_name entry) ".."
    then ret tt
    else recursive_walk config envp full_path sub
  else
    m <- matches config entry full_path ;;
    if (m : bool) then process config full_path envp else ret tt.

Fixpoint walk_entries (config : configuration) (envp : list string)
         (path : string) (es : list (dirent * dir)) : M unit :=
  match es with
  | [] => ret tt
  | e :: rest => walk_entry config envp path e ;; walk_entries config envp path rest
  end.

(** The dispatcher called on each of [paths] in turn. *)
Fixpoint dispatch_all (config : configuration) (envp : list string)
         (paths : list string) : M unit :=
  match paths with
  | [] => ret tt
  | p :: rest => process config p envp ;; dispatch_all config envp rest
  end.

(** What [opendir] and [readdir] show below each path. *)
Variable file_system : string -> dir.
(** What the uninitialised objects hold. *)
Variable u : indeterminate.

(** [main]; falling off its end returns 0. *)
Definition main (argv envp : list string) : M Z :=
  if (Z.of_nat (List.length argv) <? 2) then
    print_help ;; ret EXIT_FAILURE
  else
    match configuration_ctor u argv with
    | inr config =>
        if is_help config then print_help ;; ret EXIT_SUCCESS
        else
          recursive_walk config envp (nth 1 argv "") (file_system (nth 1 argv "")) ;;
          ret 0
    | inl what => cerr what ;; ret EXIT_FAILURE
    end.

End Program.

(** ** Reading traces *)

Definition stat_calls (tr : list event) : list string :=
  flat_map (fun e => match e with ev_stat p => [p] | _ => [] end) tr.

Definition opendir_calls (tr : list event) : list string :=
  flat_map (fun e => match e with ev_opendir p => [p] | _ => [] end) tr.

Definition stdout_of (tr : list event) : list string :=
  flat_map (fun e => match e with ev_stdout t => [t] | _ => [] end) tr.

Definition stderr_of (tr : list event) : list string :=
  flat_map (fun e => match e with ev_stderr t => [t] | _ => [] end) tr.

Definition fork_calls (tr : list event) : list (Z + Z) :=
  flat_map (fun e => match e with ev_fork r => [r] | _ => [] end) tr.

Definition execve_calls (tr : list event) : list (Z * string * list string * list string) :=
  flat_map (fun e => match e with ev_execve pid f a env => [(pid, f, a, env)] | _ => [] end) tr.

Definition waitpid_calls (tr : list event) : list (Z * option Z) :=
  flat_map (fun e => match e with ev_waitpid pid r => [(pid, r)] | _ => [] end) tr.

(** The number of children created and not yet reaped: a successful
    [fork] adds one, a successful [waitpid] takes one away. *)
Definition child_step (live : nat) (e : event) : nat :=
  match e with
  | ev_fork (inr _) => S live
  | ev_waitpid _ None => Nat.pred live
  | _ => live
  end.

(** How many are left after a trace that starts with [live] of them,
    and the most there ever were. *)
Fixpoint children_left (live : nat) (tr : list event) : nat :=
  match tr with
  | [] => live
  | e :: rest => children_left (child_step live e) rest
  end.

Fixpoint peak_children (live : nat) (tr : list event) : nat :=
  match tr with
  | [] => live
  | e :: rest => Nat.max live (peak_children (child_step live e) rest)
  end.


(** ** The predicates of a configuration, as the specification reads them *)

(** No predicate was given on the command line. *)
Definition no_predicate (c : configuration) : bool :=
  optional.empty (inode c) && match name c with None => true | Some _ => false end
  && optional.empty (size c) && optional.empty (nlinks c).

(** The two predicates that read the directory entry alone. *)
Definition cheap_checks_pass (c : configuration) (file : dirent) : bool :=
  (optional.empty (inode c) || (optional.value (inode c) =? d_ino file))
  && match name c with
     | Some n => String.eqb (d_name file) n
     | None => true
     end.

(** The comparison of a size filter. *)
Definition size_holds (filter : Z * size_type) (sz : Z) : bool :=
  match snd filter with
  | EQUAL => sz =? fst filter
  | GREATER => fst filter <? sz
  | LESS => sz <? fst filter
  | no_enumerator _ => true
  end.

Definition is_dot (n : string) : bool := String.eqb n "." || String.eqb n "..".

(** The directories a walk from [path] has to open, in order: [path]
    itself and, if it opens, the walk of every entry of type
    [DT_DIR] other than the two dot entries. *)
Fixpoint visited_dirs (path : string) (d : dir) {struct d} : list string :=
  path ::
  match d with
  | opendir_fails _ => []
  | opened entries _ =>
      (fix over (es : list (dirent * dir)) : list string :=
         match es with
         | [] => []
         | (entry, sub) :: rest =>
             List.app
               (if (d_type entry =? DT_DIR) && negb (is_dot (d_name entry))
                then visited_dirs (path ++ "/" ++ d_name entry) sub
                else [])
               (over rest)
         end) entries
  end.

(** The entries a walk from [path] has to hand to the matcher, in
    order, each with its full path: those not of type [DT_DIR], in
    every directory that opens. *)
Fixpoint candidates (path : string) (d : dir) {struct d} : list (dirent * string) :=
  match d with
  | opendir_fails _ => []
  | opened entries _ =>
      (fix over (es : list (dirent * dir)) : list (dirent * string) :=
         match es with
         | [] => []
         | (entry, sub) :: rest =>
             List.app
               (if d_type entry =? DT_DIR
                then if is_dot (d_name entry) then []
                     else candidates (path ++ "/" ++ d_name entry) sub
                else [(entry, path ++ "/" ++ d_name entry)])
               (over rest)
         end) entries
  end.

Definition stat_succeeds (sys_stat : string -> Z + stat_t) (path : string) : bool :=
  match sys_stat path with inr _ => true | inl _ => false end.

(** The two predicates that read the status record. *)
Definition stat_checks_pass (c : configuration) (st : stat_t) : bool :=
  (optional.empty (size c) || size_holds (optional.value (size c)) (st_size st))
  && (optional.empty (nlinks c) || (st_nlink st =? optional.value (nlinks c))).

(** [visited_dirs] and [candidates] over the entries of one directory. *)
Definition visited_entry (path : string) (e : dirent * dir) : list string :=
  if (d_type (fst e) =? DT_DIR) && negb (is_dot (d_name (fst e)))
  then visited_dirs (path ++ "/" ++ d_name (fst e)) (snd e)
  else [].

Definition candidates_entry (path : string) (e : dirent * dir) : list (dirent * string) :=
  if d_type (fst e) =? DT_DIR
  then if is_dot (d_name (fst e)) then []
       else candidates (path ++ "/" ++ d_name (fst e)) (snd e)
  else [(fst e, path ++ "/" ++ d_name (fst e))].

(** An entry that satisfies every configured predicate: the cheap
    checks pass, the status lookup succeeds and the checks on the
    status record pass. *)
Definition would_match (sys_stat : string -> Z + stat_t) (c : configuration)
           (e : dirent * string) : bool :=
  cheap_checks_pass c (fst e)
  && match sys_stat (snd e) with
     | inr st => stat_checks_pass c st
     | inl _ => false
     end.

(** [m] runs to its end from every state. *)
Definition total {A : Type} (m : M A) : Prop :=
  forall n, exists a, result_of (m n) = done a.

(** A trace that leaves as many children as it found and never has
    more than one of its own. *)
Definition serial (tr : list event) : Prop :=
  forall live : nat,
    children_left live tr = live /\ (peak_children live tr <= S live)%nat.

(** ** Option values, as the specification reads them *)

(** A well-formed unsigned integer: digits, at least one, and nothing
    else. *)
Fixpoint only_digits (s : string) : bool :=
  match s with
  | EmptyString => true
  | String c r => isdigit c && only_digits r
  end.

Definition unsigned_integer (s : string) : bool :=
  negb (String.eqb s "") && only_digits s.

(** The grammar of a [-size] value: an optional [=], [+] or [-], then
    one or more digits. *)
Definition size_grammar (s : string) : bool :=
  match s with
  | String c r =>
      if Ascii.eqb c "=" || Ascii.eqb c "+" || Ascii.eqb c "-"
      then unsigned_integer r
      else unsigned_integer s
  | EmptyString => false
  end.

(** No number can be read from [value]: after its leading white space
    and one optional sign there is no digit, or the digits found
    there stand for more than [ULLONG_MAX]. *)
Definition unreadable_number (value : string) : bool :=
  let body := snd (read_sign (skip_space value)) in
  negb (isdigit (char_at body 0)) || (digits_value 0 body >? ULLONG_MAX).

(** The [-size] values that are turned down: the first character is
    neither a digit nor one of the three signs, or nothing or a ['-']
    follows the sign, or no number can be read after the sign. *)
Definition size_rejected (value : string) : bool :=
  let c := char_at value 0 in
  if isdigit c then unreadable_number value
  else if Ascii.eqb c "+" || Ascii.eqb c "-" || Ascii.eqb c "=" then
    let rest := advance value 1 in
    String.eqb rest "" || Ascii.eqb (char_at rest 0) "-" || unreadable_number rest
  else true.

(** The events of a trace that dispatch a match: a line on the
    standard output or a call of [fork]. *)
Definition dispatches (tr : list event) : list unit :=
  flat_map (fun e => match e with ev_stdout _ | ev_fork _ => [tt] | _ => [] end) tr.

(** ** More readings of traces and configurations *)

(** The events of a trace that belong to dispatching: what is
    written to the standard output and what is done to processes. *)
Definition dispatch_events (tr : list event) : list event :=
  flat_map (fun e => match e with
                     | ev_stdout _ | ev_fork _ | ev_execve _ _ _ _
                     | ev_exit _ _ | ev_waitpid _ _ => [e]
                     | _ => []
                     end) tr.

Definition closedir_calls (tr : list event) : list string :=
  flat_map (fun e => match e with ev_closedir p => [p] | _ => [] end) tr.

(** The directories a walk from [path] has to close, in order: those
    it visits that open, each after everything below it. *)
Fixpoint closed_dirs (path : string) (d : dir) {struct d} : list string :=
  match d with
  | opendir_fails _ => []
  | opened entries _ =>
      List.app
        ((fix over (es : list (dirent * dir)) : list string :=
            match es with
            | [] => []
            | (entry, sub) :: rest =>
                List.app
                  (if (d_type entry =? DT_DIR) && negb (is_dot (d_name entry))
                   then closed_dirs (path ++ "/" ++ d_name entry) sub
                   else [])
                  (over rest)
            end) entries)
        [path]
  end.

Definition closed_entry (path : string) (e : dirent * dir) : list string :=
  if (d_type (fst e) =? DT_DIR) && negb (is_dot (d_name (fst e)))
  then closed_dirs (path ++ "/" ++ d_name (fst e)) (snd e)
  else [].

(** A size compared with a threshold, as a proposition. *)
Definition compares (type : size_type) (sz threshold : Z) : Prop :=
  match type with
  | EQUAL => sz = threshold
  | GREATER => threshold < sz
  | LESS => sz < threshold
  | no_enumerator _ => True
  end.

(** An entry with status record [st] satisfies every predicate that
    is set in a configuration. *)
Definition satisfies (c : configuration) (file : dirent) (st : stat_t) : Prop :=
  (optional.is_set (inode c) = true -> d_ino file = optional.value (inode c))
  /\ (forall n, name c = Some n -> d_name file = n)
  /\ (optional.is_set (size c) = true ->
      compares (snd (optional.value (size c))) (st_size st) (fst (optional.value (size c))))
  /\ (optional.is_set (nlinks c) = true -> st_nlink st = optional.value (nlinks c)).

(** The options the constructor knows. *)
Definition known_option (option : string) : bool :=
  streq option "-help" || streq option "-inum" || streq option "-name"
  || streq option "-size" || streq option "-nlinks" || streq option "-exec".

(** [p] is [root] or lies below it. *)
Definition below (root p : string) : Prop :=
  p = root \/ exists rest, p = root ++ "/" ++ rest.

(** Two optionals, and two configurations, that differ at most in
    what the [value] of an unset optional holds. *)
Definition same_optional {T : Type} (a b : optional.t T) : Prop :=
  optional.is_set a = optional.is_set b
  /\ (optional.is_set a = true -> optional.value a = optional.value b).

Definition same_settings (c1 c2 : configuration) : Prop :=
  help c1 = help c2
  /\ same_optional (inode c1) (inode c2)
  /\ name c1 = name c2
  /\ same_optional (size c1) (size c2)
  /\ same_optional (nlinks c1) (nlinks c2)
  /\ executable c1 = executable c2.

(** ** A small world to run the program in *)

Module Example.

Definition ENOENT : Z := 2.
Definition EINTR : Z := 4.
Definition EAGAIN : Z := 11.
Definition EACCES : Z := 13.

Definition strerror (errno : Z) : string :=
  if errno =? ENOENT then "No such file or directory"
  else if errno =? EINTR then "Interrupted system call"
  else if errno =? EAGAIN then "Resource temporarily unavailable"
  else if errno =? EACCES then "Permission denied"
  else "Unknown error".

(** [r/dangling] is a symbolic link to nothing. *)
Definition sys_stat (path : string) : Z + stat_t :=
  if String.eqb path "r/a" then inr (mkstat 11 100 1)
  else if String.eqb path "r/b" then inr (mkstat 12 101 2)
  else if String.eqb path "r/sub/c" then inr (mkstat 13 7 1)
  else if String.eqb path "u/." then inr (mkstat 2 4096 3)
  else inl ENOENT.

Definition dot : dirent * dir := (mkdirent 2 DT_DIR ".", opendir_fails ENOENT).
Definition dotdot : dirent * dir := (mkdirent 1 DT_DIR "..", opendir_fails ENOENT).
Definition file (ino : Z) (n : string) : dirent * dir :=
  (mkdirent ino DT_REG n, opendir_fails ENOENT).

Definition sub : dir := opened [dot; dotdot; file 13 "c"] None.

Definition tree : dir :=
  opened [dot; dotdot; file 11 "a";
          (mkdirent 14 DT_LNK "dangling", opendir_fails ENOENT);
          (mkdirent 15 DT_DIR "locked", opendir_fails EACCES);
          (mkdirent 16 DT_DIR "sub", sub);
          file 12 "b"] None.

(** A directory of a file system that reports no entry types. *)
Definition untyped : dir :=
  opened [(mkdirent 2 DT_UNKNOWN ".", opendir_fails ENOENT)] None.

Definition file_system (path : string) : dir :=
  if String.eqb path "r" then tree
  else if String.eqb path "u" then untyped
  else opendir_fails ENOENT.

Definition junk : indeterminate := mkindet 0 (0, EQUAL) 0 GREATER.

(** Other memory, with the same uninitialised comparator. *)
Definition other_junk : indeterminate := mkindet 7 (3, LESS) 9 GREATER.

Definition fork_ok (n : nat) : Z + Z := inr (100 + Z.of_nat n).
Definition fork_fails (n : nat) : Z + Z := inl EAGAIN.
Definition execve_ok (file : string) : option Z := None.
Definition waitpid_ok (pid : Z) : option Z := None.

Definition envp : list string := ["HOME=/root"].

Definition entry_a : dirent := mkdirent 11 DT_REG "a".
Definition entry_b : dirent := mkdirent 12 DT_REG "b".
Definition dangling : dirent := mkdirent 14 DT_LNK "dangling".

(** No predicate at all, and the same with [-exec /bin/true]. *)
Definition plain : configuration := fresh_configuration junk.
Definition exec_config : configuration := with_executable "/bin/true" plain.

(** The program in this world, children starting and ending well. *)
Definition run (argv : list string) : outcome Z * nat * list event :=
  main strerror sys_stat fork_ok execve_ok waitpid_ok file_system junk argv envp 0%nat.

End Example.

(** * Properties *)

(** ** Running the monad *)

Lemma bind_run {A B : Type} (m : M A) (f : A -> M B) (n : nat) :
  bind m f n =
  match m n with
  | (done a, n1, t1) =>
      (result_of (f a n1), forks_of (f a n1), (t1 ++ trace_of (f a n1))%list)
  | (aborted, n1, t1) => (aborted, n1, t1)
  end.
Proof.
  unfold bind, result_of, forks_of, trace_of.
  destruct (m n) as [[[a|] n1] t1]; [|reflexivity].
  destruct (f a n1) as [[r n2] t2]; reflexivity.
Qed.

Lemma total_ret {A : Type} (a : A) : total (ret a).
Proof. intros n; exists a; reflexivity. Qed.

Lemma total_emit (e : event) : total (emit e).
Proof. intros n; exists tt; reflexivity. Qed.

Lemma total_bind {A B : Type} (m : M A) (f : A -> M B) :
  total m -> (forall a, total (f a)) -> total (bind m f).
Proof.
  intros Hm Hf n. destruct (Hm n) as [a Ha].
  rewrite bind_run. destruct (m n) as [[r n1] t1]; unfold result_of in Ha; simpl in Ha; subst r.
  destruct (Hf a n1) as [b Hb]. exists b. exact Hb.
Qed.

Lemma trace_bind {A B : Type} (m : M A) (f : A -> M B) (n : nat) a :
  result_of (m n) = done a ->
  trace_of (bind m f n) = (trace_of (m n) ++ trace_of (f a (forks_of (m n))))%list
  /\ result_of (bind m f n) = result_of (f a (forks_of (m n)))
  /\ forks_of (bind m f n) = forks_of (f a (forks_of (m n))).
Proof.
  intros H. rewrite bind_run.
  destruct (m n) as [[r n1] t1]; unfold result_of in H; simpl in H; subst r.
  repeat split.
Qed.

(** The nested induction principle of [dir]. *)
Lemma dir_induction (P : dir -> Prop) :
  (forall errno, P (opendir_fails errno)) ->
  (forall entries closedir_errno,
      Forall (fun e => P (snd e)) entries -> P (opened entries closedir_errno)) ->
  forall d, P d.
Proof.
  intros Hfail Hopen.
  fix IH 1. intros [errno | entries cl].
  - apply Hfail.
  - apply Hopen. induction entries as [|[entry sub] rest IHrest].
    + constructor.
    + constructor; [apply IH | exact IHrest].
Qed.

Lemma visited_dirs_opened path es cl :
  visited_dirs path (opened es cl) = path :: flat_map (visited_entry path) es.
Proof.
  simpl. f_equal. induction es as [|[entry sub] rest IH]; [reflexivity|].
  simpl. unfold visited_entry at 1. simpl. rewrite IH. reflexivity.
Qed.

Lemma candidates_opened path es cl :
  candidates path (opened es cl) = flat_map (candidates_entry path) es.
Proof.
  simpl. induction es as [|[entry sub] rest IH]; [reflexivity|].
  simpl. unfold candidates_entry at 1. simpl. rewrite IH. reflexivity.
Qed.

Lemma geb_ltb (a b : Z) : negb (a >=? b) = (a <? b).
Proof. unfold Z.geb, Z.ltb. destruct (a ?= b); reflexivity. Qed.

Lemma leb_ltb (a b : Z) : negb (a <=? b) = (b <? a).
Proof. rewrite (Z.ltb_antisym a b). reflexivity. Qed.

(** Unfolds the monad so that a run on a given state computes. *)
Ltac run_prog :=
  cbv beta iota delta
    [bind ret emit abort cerr cout stat get_asserted
     optional.get optional.empty optional.is_set optional.value
     result_of forks_of trace_of fst snd negb app].

Ltac split_tests :=
  repeat match goal with
         | |- context [Z.eqb ?a ?b] => destruct (Z.eqb a b); run_prog
         | |- context [Z.geb ?a ?b] => destruct (Z.geb a b); run_prog
         | |- context [Z.leb ?a ?b] => destruct (Z.leb a b); run_prog
         | |- context [String.eqb ?a ?b] => destruct (String.eqb a b); run_prog
         end.

Section Properties.

Variable strerror : Z -> string.
Variable sys_stat : string -> Z + stat_t.
Variable sys_fork : nat -> Z + Z.
Variable sys_execve : string -> option Z.
Variable sys_waitpid : Z -> option Z.
Variable file_system : string -> dir.
Variable u : indeterminate.

Local Abbreviation Main :=
  (main strerror sys_stat sys_fork sys_execve sys_waitpid file_system u).
Local Abbreviation Matches := (matches strerror sys_stat).
Local Abbreviation Process := (process strerror sys_fork sys_execve sys_waitpid).
Local Abbreviation Walk := (recursive_walk strerror sys_stat sys_fork sys_execve sys_waitpid).
Local Abbreviation WalkEntry := (walk_entry strerror sys_stat sys_fork sys_execve sys_waitpid).
Local Abbreviation WalkEntries := (walk_entries strerror sys_stat sys_fork sys_execve sys_waitpid).

(** ** The matcher in closed form *)

Lemma matches_run config file path n :
  Matches config file path n =
  if cheap_checks_pass config file then
    match sys_stat path with
    | inl errno =>
        (done false, n,
         [ev_stat path;
          ev_stderr ("Cannot check file " ++ path ++ ": " ++ strerror errno ++ nl)])
    | inr st => (done (stat_checks_pass config st), n, [ev_stat path])
    end
  else (done false, n, []).
Proof.
  destruct config as [h [iv iset] nm [[sv sty] sset] [nv nset] ex].
  unfold matches, cheap_checks_pass, stat_checks_pass, size_holds, streq.
  cbn [inode name size nlinks].
  destruct sty, iset, nm as [nm|], sset, nset; run_prog; cbn [orb andb].
  all: destruct (sys_stat path) as [errno|st]; run_prog.
  all: try rewrite <- (leb_ltb (st_size st) sv).
  all: try rewrite <- (geb_ltb (st_size st) sv).
  all: split_tests; reflexivity.
Qed.

(** ** The dispatcher in closed form *)

Lemma process_run config name envp n :
  Process config name envp n =
  (done tt,
   match get_executable config with Some _ => S n | None => n end,
   match get_executable config with
   | None => [ev_stdout (name ++ nl)]
   | Some exe =>
       match sys_fork n with
       | inl errno =>
           [ev_fork (inl errno); ev_stderr ("Cannot fork: " ++ strerror errno ++ nl)]
       | inr pid =>
           ev_fork (inr pid) :: ev_execve pid exe [exe; name] envp ::
           (match sys_execve exe with
            | Some errno =>
                [ev_stderr ("The following error occurred: " ++ strerror errno ++ nl);
                 ev_exit pid EXIT_FAILURE]
            | None => []
            end ++
            ev_waitpid pid (sys_waitpid pid) ::
            match sys_waitpid pid with
            | Some errno =>
                [ev_stderr ("The following error occurred: " ++ strerror errno ++ nl)]
            | None => []
            end)%list
       end
   end).
Proof.
  unfold process, fork, child, waitpid, show_error.
  destruct (get_executable config) as [exe|]; [|reflexivity].
  run_prog. cbn [nth].
  destruct (sys_fork n) as [errno|pid]; [reflexivity|].
  destruct (sys_execve exe), (sys_waitpid pid); reflexivity.
Qed.

(** ** The walker, one directory at a time *)

Lemma recursive_walk_opened config envp path es cl :
  Walk config envp path (opened es cl) =
  (emit (ev_opendir path) ;;
   WalkEntries config envp path es ;;
   emit (ev_closedir path) ;;
   match cl with
   | Some errno => cerr ("Cannot close " ++ path ++ ": " ++ strerror errno ++ nl)
   | None => ret tt
   end).
Proof.
  cbn [recursive_walk]. f_equal.
  match goal with
  | |- (fun _ => bind (?loop es) ?k) = _ =>
      assert (Hloop : forall l, loop l = WalkEntries config envp path l)
  end.
  { induction l as [|[entry sub] rest IH]; [reflexivity|].
    cbn [walk_entries walk_entry]. rewrite <- IH. reflexivity. }
  rewrite Hloop. reflexivity.
Qed.

Lemma recursive_walk_fails config envp path errno n :
  Walk config envp path (opendir_fails errno) n =
  (done tt, n,
   [ev_opendir path; ev_stderr ("Cannot open " ++ path ++ ": " ++ strerror errno ++ nl)]).
Proof. reflexivity. Qed.

Lemma matches_total config file path : total (Matches config file path).
Proof.
  intros n. rewrite matches_run.
  destruct (cheap_checks_pass config file); [destruct (sys_stat path)|]; eexists; reflexivity.
Qed.

Lemma process_total config name envp : total (Process config name envp).
Proof. intros n. rewrite process_run. exists tt. reflexivity. Qed.

Lemma walk_entries_total config envp path es :
  Forall (fun e => forall p, total (Walk config envp p (snd e))) es ->
  total (WalkEntries config envp path es).
Proof.
  induction 1 as [|[entry sub] rest Hsub _ IH]; cbn [walk_entries].
  - apply total_ret.
  - apply total_bind; [|intros _; exact IH].
    unfold walk_entry. destruct (d_type entry =? DT_DIR).
    + destruct (streq (d_name entry) "." || streq (d_name entry) "..");
        [apply total_ret | apply Hsub].
    + apply total_bind; [apply matches_total|].
      intros [|]; [apply process_total | apply total_ret].
Qed.

Lemma walk_total config envp d : forall path, total (Walk config envp path d).
Proof.
  induction d as [errno | es cl IH] using dir_induction; intros path.
  - intros n. exists tt. reflexivity.
  - rewrite recursive_walk_opened.
    apply total_bind; [apply total_emit|]. intros _.
    apply total_bind; [apply walk_entries_total; exact IH|]. intros _.
    apply total_bind; [apply total_emit|]. intros _.
    destruct cl; [apply total_emit | apply total_ret].
Qed.

Lemma walk_done config envp path d n :
  result_of (Walk config envp path d n) = done tt.
Proof. destruct (walk_total config envp d path n) as [[] H]. exact H. Qed.

Lemma walk_entry_done config envp path e n :
  result_of (WalkEntry config envp path e n) = done tt.
Proof.
  assert (H : total (WalkEntries config envp path [e])).
  { apply walk_entries_total. constructor; [|constructor].
    intros p. apply walk_total. }
  destruct (H n) as [[] Hn]. cbn [walk_entries] in Hn.
  rewrite bind_run in Hn.
  destruct (WalkEntry config envp path e n) as [[[[]|] n1] t1]; [reflexivity|discriminate].
Qed.

Lemma walk_entries_cons config envp path e rest n :
  trace_of (WalkEntries config envp path (e :: rest) n) =
    (trace_of (WalkEntry config envp path e n) ++
     trace_of (WalkEntries config envp path rest
                 (forks_of (WalkEntry config envp path e n))))%list
  /\ forks_of (WalkEntries config envp path (e :: rest) n) =
     forks_of (WalkEntries config envp path rest
                 (forks_of (WalkEntry config envp path e n))).
Proof.
  cbn [walk_entries].
  destruct (trace_bind (WalkEntry config envp path e)
              (fun _ => WalkEntries config envp path rest) n tt
              (walk_entry_done config envp path e n)) as (Ht & _ & Hf).
  split; assumption.
Qed.

Lemma walk_entries_done config envp path es n :
  result_of (WalkEntries config envp path es n) = done tt.
Proof.
  assert (H : total (WalkEntries config envp path es)).
  { apply walk_entries_total. apply Forall_forall. intros e _ p. apply walk_total. }
  destruct (H n) as [[] Hn]. exact Hn.
Qed.

Lemma walk_opened_trace config envp path es cl n :
  trace_of (Walk config envp path (opened es cl) n) =
    (ev_opendir path :: trace_of (WalkEntries config envp path es n) ++
     ev_closedir path ::
     match cl with
     | Some errno => [ev_stderr ("Cannot close " ++ path ++ ": " ++ strerror errno ++ nl)]
     | None => []
     end)%list
  /\ forks_of (Walk config envp path (opened es cl) n) =
     forks_of (WalkEntries config envp path es n).
Proof.
  rewrite recursive_walk_opened.
  rewrite bind_run. cbn [emit].
  pose proof (walk_entries_done config envp path es n) as Hd.
  rewrite bind_run.
  destruct (WalkEntries config envp path es n) as [[r n1] t1].
  unfold result_of in Hd; simpl in Hd; subst r.
  destruct cl; split; reflexivity.
Qed.

(** One turn of the loop on an entry that is not of type [DT_DIR]. *)
Lemma walk_file_run config envp path entry sub n :
  (d_type entry =? DT_DIR) = false ->
  let full_path := path ++ "/" ++ d_name entry in
  WalkEntry config envp path (entry, sub) n =
  (done tt,
   if would_match sys_stat config (entry, full_path)
   then forks_of (Process config full_path envp n) else n,
   (trace_of (Matches config entry full_path n) ++
    if would_match sys_stat config (entry, full_path)
    then trace_of (Process config full_path envp n) else [])%list).
Proof.
  intros Hty full_path. unfold walk_entry. rewrite Hty. fold full_path.
  rewrite bind_run, matches_run. unfold would_match. cbn [fst snd].
  destruct (cheap_checks_pass config entry); cbn [andb].
  - destruct (sys_stat full_path) as [errno|st]; [reflexivity|].
    destruct (stat_checks_pass config st).
    + rewrite process_run. reflexivity.
    + reflexivity.
  - reflexivity.
Qed.

(** One turn of the loop on an entry of type [DT_DIR]. *)
Lemma walk_dir_run config envp path entry sub n :
  (d_type entry =? DT_DIR) = true ->
  WalkEntry config envp path (entry, sub) n =
  if is_dot (d_name entry) then (done tt, n, [])
  else Walk config envp (path ++ "/" ++ d_name entry) sub n.
Proof.
  intros Hty. unfold walk_entry, is_dot, streq. rewrite Hty.
  destruct ((d_name entry =? ".")%string || (d_name entry =? "..")%string); reflexivity.
Qed.

(** ** What a walk opens, looks up and dispatches *)

(** The skeleton shared by the proofs about a whole walk: induction
    on the tree, then on the entries of the directory. *)
Ltac walk_induction config envp d path n :=
  induction d as [errno | es cl IHd] using dir_induction; intros path n;
  [ rewrite recursive_walk_fails
  | destruct (walk_opened_trace config envp path es cl n) as [-> _] ].

Ltac entries_induction config envp path IHd n e :=
  revert n; induction IHd as [|e rest Hsub _ IHrest]; intros n;
  [ reflexivity
  | destruct (walk_entries_cons config envp path e rest n) as [-> _] ].

Lemma matches_opendir_calls config file path n :
  opendir_calls (trace_of (Matches config file path n)) = [].
Proof.
  rewrite matches_run.
  destruct (cheap_checks_pass config file); [destruct (sys_stat path)|]; reflexivity.
Qed.

Lemma process_opendir_calls config name envp n :
  opendir_calls (trace_of (Process config name envp n)) = [].
Proof.
  rewrite process_run. unfold trace_of, snd.
  destruct (get_executable config); [|reflexivity].
  destruct (sys_fork n); [reflexivity|].
  destruct (sys_execve s), (sys_waitpid z); reflexivity.
Qed.

Lemma walk_opendir_calls config envp d :
  forall path n,
    opendir_calls (trace_of (Walk config envp path d n)) = visited_dirs path d.
Proof.
  walk_induction config envp d path n; [reflexivity|].
  rewrite visited_dirs_opened. unfold opendir_calls.
  cbn [flat_map app]. f_equal. rewrite flat_map_app.
  replace (flat_map _ (ev_closedir path :: _)) with (@nil string)
    by (destruct cl; reflexivity).
  rewrite app_nil_r. fold opendir_calls.
  entries_induction config envp path IHd n e.
  unfold opendir_calls. rewrite flat_map_app. fold opendir_calls.
  cbn [flat_map]. rewrite IHrest. f_equal.
  destruct e as [entry sub]. unfold visited_entry. cbn [fst snd] in *.
  destruct (d_type entry =? DT_DIR) eqn:Hty; cbn [andb].
  - rewrite walk_dir_run by assumption.
    destruct (is_dot (d_name entry)); [reflexivity | apply Hsub].
  - rewrite walk_file_run by assumption. unfold trace_of at 1, snd.
    unfold opendir_calls. rewrite flat_map_app. fold opendir_calls.
    rewrite matches_opendir_calls.
    destruct (would_match _ _ _); [apply process_opendir_calls | reflexivity].
Qed.

(** An observation [f] of the events that sees nothing of the
    walker's own events sees, of a whole walk, what it sees of the
    turns on the candidates, in order. *)
Lemma walk_observe {X : Type} (f : event -> list X) (spec : dirent * string -> list X)
      config envp :
  (forall p, f (ev_opendir p) = []) ->
  (forall p, f (ev_closedir p) = []) ->
  (forall t, f (ev_stderr t) = []) ->
  (forall file path n,
      flat_map f (trace_of (Matches config file path n) ++
                  if would_match sys_stat config (file, path)
                  then trace_of (Process config path envp n) else []) =
      spec (file, path)) ->
  forall d path n,
    flat_map f (trace_of (Walk config envp path d n)) = flat_map spec (candidates path d).
Proof.
  intros Hopen Hclose Herr Hturn d.
  walk_induction config envp d path n.
  - unfold trace_of, snd. cbn [flat_map]. rewrite Hopen, Herr. reflexivity.
  - rewrite candidates_opened.
    cbn [flat_map]. rewrite Hopen. cbn [app]. rewrite flat_map_app.
    replace (flat_map f (ev_closedir path :: _)) with (@nil X)
      by (destruct cl; cbn [flat_map]; rewrite Hclose, ?Herr; reflexivity).
    rewrite app_nil_r.
    entries_induction config envp path IHd n e.
    rewrite flat_map_app. cbn [flat_map]. rewrite flat_map_app, IHrest. f_equal.
    destruct e as [entry sub]. unfold candidates_entry. cbn [fst snd] in *.
    destruct (d_type entry =? DT_DIR) eqn:Hty.
    + rewrite walk_dir_run by assumption.
      destruct (is_dot (d_name entry)); [reflexivity | apply Hsub].
    + rewrite walk_file_run by assumption. unfold trace_of at 1, snd.
      rewrite Hturn. cbn [flat_map]. rewrite app_nil_r. reflexivity.
Qed.

Lemma flat_map_filter {A B : Type} (h : A -> bool) (g : A -> B) (l : list A) :
  flat_map (fun a => if h a then [g a] else []) l = map g (filter h l).
Proof.
  induction l as [|a l IH]; [reflexivity|].
  cbn [flat_map filter]. destruct (h a); cbn [map app]; rewrite IH; reflexivity.
Qed.

Lemma process_trace_cases config name envp n (P : list event -> Prop) :
  (get_executable config = None -> P [ev_stdout (name ++ nl)]) ->
  (forall exe errno,
      get_executable config = Some exe -> sys_fork n = inl errno ->
      P [ev_fork (inl errno); ev_stderr ("Cannot fork: " ++ strerror errno ++ nl)]) ->
  (forall exe pid,
      get_executable config = Some exe -> sys_fork n = inr pid ->
      P (ev_fork (inr pid) :: ev_execve pid exe [exe; name] envp ::
         (match sys_execve exe with
          | Some errno =>
              [ev_stderr ("The following error occurred: " ++ strerror errno ++ nl);
               ev_exit pid EXIT_FAILURE]
          | None => []
          end ++
          ev_waitpid pid (sys_waitpid pid) ::
          match sys_waitpid pid with
          | Some errno =>
              [ev_stderr ("The following error occurred: " ++ strerror errno ++ nl)]
          | None => []
          end)%list)) ->
  P (trace_of (Process config name envp n)).
Proof.
  intros Hnone Hfail Hok. rewrite process_run. unfold trace_of, snd.
  destruct (get_executable config) as [exe|]; [|apply Hnone; reflexivity].
  destruct (sys_fork n) as [errno|pid].
  - apply (Hfail exe errno); reflexivity.
  - apply (Hok exe pid); reflexivity.
Qed.

(** The status lookups of a walk: one for every candidate that
    passes the cheap checks. *)
Lemma walk_stat_calls config envp d path n :
  stat_calls (trace_of (Walk config envp path d n)) =
  map snd (filter (fun e => cheap_checks_pass config (fst e)) (candidates path d)).
Proof.
  rewrite <- flat_map_filter. unfold stat_calls.
  apply walk_observe; try reflexivity.
  intros file p k. rewrite flat_map_app.
  replace (flat_map _ (if would_match sys_stat config (file, p) then _ else _))
    with (@nil string).
  - rewrite app_nil_r, matches_run. cbn [fst snd].
    destruct (cheap_checks_pass config file); [destruct (sys_stat p)|]; reflexivity.
  - destruct (would_match _ _ _); [|reflexivity].
    apply process_trace_cases; intros; try reflexivity.
    destruct (sys_execve exe), (sys_waitpid pid); reflexivity.
Qed.

Lemma matches_quiet {X : Type} (f : event -> list X) config file path n :
  (forall p, f (ev_stat p) = []) -> (forall t, f (ev_stderr t) = []) ->
  flat_map f (trace_of (Matches config file path n)) = [].
Proof.
  intros Hs He. rewrite matches_run.
  destruct (cheap_checks_pass config file); [destruct (sys_stat path)|];
    unfold trace_of, snd; cbn [flat_map]; rewrite ?Hs, ?He; reflexivity.
Qed.

(** Without [-exec], the lines written by a walk: one for every
    candidate that satisfies every configured predicate. *)
Lemma walk_stdout config envp d path n :
  get_executable config = None ->
  stdout_of (trace_of (Walk config envp path d n)) =
  map (fun e => snd e ++ nl) (filter (would_match sys_stat config) (candidates path d)).
Proof.
  intros Hexe. rewrite <- flat_map_filter. unfold stdout_of.
  apply walk_observe; try reflexivity.
  intros file p k. rewrite flat_map_app, matches_quiet by reflexivity.
  destruct (would_match _ _ _); [|reflexivity].
  rewrite process_run, Hexe. reflexivity.
Qed.

(** With [-exec], the calls of [fork] of a walk: one for every
    candidate that satisfies every configured predicate. *)
Lemma walk_fork_calls config envp d path n exe :
  get_executable config = Some exe ->
  List.length (fork_calls (trace_of (Walk config envp path d n))) =
  List.length (filter (would_match sys_stat config) (candidates path d)).
Proof.
  intros Hexe.
  rewrite <- (length_map (fun _ => tt) (filter _ _)), <- flat_map_filter.
  rewrite <- (walk_observe
                (fun e => match e with ev_fork _ => [tt] | _ => [] end)
                (fun e => if would_match sys_stat config e then [tt] else [])
                config envp) with (n := n); try reflexivity.
  - unfold fork_calls. generalize (trace_of (Walk config envp path d n)).
    induction l as [|e l IH]; [reflexivity|].
    cbn [flat_map]. rewrite !length_app, IH. destruct e; reflexivity.
  - intros file p k. rewrite flat_map_app, matches_quiet by reflexivity.
    destruct (would_match _ _ _); [|reflexivity].
    apply process_trace_cases; intros; try congruence; try reflexivity.
    destruct (sys_execve exe0), (sys_waitpid pid); reflexivity.
Qed.

(** A property of traces that holds of the empty trace, of every
    event and turn of the walker, and of the concatenation of two
    traces that have it, holds of a whole walk. *)
Lemma walk_all (Q : list event -> Prop) config envp :
  Q [] ->
  (forall a b, Q a -> Q b -> Q (a ++ b)%list) ->
  (forall p, Q [ev_opendir p]) ->
  (forall p, Q [ev_closedir p]) ->
  (forall t, Q [ev_stderr t]) ->
  (forall file path n, Q (trace_of (Matches config file path n))) ->
  (forall name n, Q (trace_of (Process config name envp n))) ->
  forall d path n, Q (trace_of (Walk config envp path d n)).
Proof.
  intros Hnil Happ Hopen Hclose Herr Hmatch Hproc d.
  walk_induction config envp d path n.
  - apply (Happ [_] [_]); [apply Hopen | apply Herr].
  - apply (Happ [_]); [apply Hopen|]. apply Happ.
    + revert n. induction IHd as [|e rest Hsub _ IHrest]; intros n; [exact Hnil|].
      destruct (walk_entries_cons config envp path e rest n) as [-> _].
      apply Happ; [|apply IHrest].
      destruct e as [entry sub]. cbn [snd] in Hsub.
      destruct (d_type entry =? DT_DIR) eqn:Hty.
      * rewrite walk_dir_run by assumption.
        destruct (is_dot (d_name entry)); [exact Hnil | apply Hsub].
      * rewrite walk_file_run by assumption. unfold trace_of at 1, snd.
        apply Happ; [apply Hmatch|].
        destruct (would_match _ _ _); [apply Hproc | exact Hnil].
    + destruct cl; [apply (Happ [_] [_]); [apply Hclose | apply Herr] | apply Hclose].
Qed.

Lemma children_left_app live a b :
  children_left live (a ++ b) = children_left (children_left live a) b.
Proof. revert live; induction a as [|e a IH]; intros live; [reflexivity | apply IH]. Qed.

Lemma peak_children_app live a b :
  peak_children live (a ++ b) =
  Nat.max (peak_children live a) (peak_children (children_left live a) b).
Proof.
  revert live; induction a as [|e a IH]; intros live; cbn [app peak_children children_left].
  - destruct b; cbn [peak_children]; lia.
  - rewrite IH. lia.
Qed.

Lemma serial_nil : serial [].
Proof. intros live. cbn. split; lia. Qed.

Lemma serial_app a b : serial a -> serial b -> serial (a ++ b).
Proof.
  intros Ha Hb live. destruct (Ha live) as [Hla Hpa].
  rewrite children_left_app, peak_children_app, Hla.
  destruct (Hb live) as [Hlb Hpb]. split; [assumption | lia].
Qed.

Lemma serial_matches config file path n : serial (trace_of (Matches config file path n)).
Proof.
  rewrite matches_run.
  destruct (cheap_checks_pass config file); [destruct (sys_stat path)|];
    intros live; cbn; split; lia.
Qed.

(** A dispatch whose [waitpid] succeeds has reaped its child when
    it returns. *)
Lemma serial_process config name envp n :
  (forall pid, sys_waitpid pid = None) ->
  serial (trace_of (Process config name envp n)).
Proof.
  intros Hwait. apply process_trace_cases.
  - intros _ live. cbn. split; lia.
  - intros exe errno _ _ live. cbn. split; lia.
  - intros exe pid _ _ live. rewrite Hwait.
    destruct (sys_execve exe);
      cbn [children_left peak_children child_step app Nat.pred]; split; lia.
Qed.

Lemma serial_walk config envp d path n :
  (forall pid, sys_waitpid pid = None) ->
  serial (trace_of (Walk config envp path d n)).
Proof.
  intros Hwait. apply walk_all.
  - apply serial_nil.
  - apply serial_app.
  - intros p live. cbn. split; lia.
  - intros p live. cbn. split; lia.
  - intros t live. cbn. split; lia.
  - apply serial_matches.
  - intros. apply serial_process. exact Hwait.
Qed.

(** What a walk dispatches: every candidate that satisfies every
    configured predicate, once. *)
Lemma walk_dispatches config envp d path n :
  dispatches (trace_of (Walk config envp path d n)) =
  map (fun _ => tt) (filter (would_match sys_stat config) (candidates path d)).
Proof.
  rewrite <- flat_map_filter. unfold dispatches.
  apply walk_observe; try reflexivity.
  intros file p k. rewrite flat_map_app, matches_quiet by reflexivity.
  destruct (would_match _ _ _); [|reflexivity].
  apply process_trace_cases; intros; try reflexivity.
  destruct (sys_execve exe), (sys_waitpid pid); reflexivity.
Qed.

Lemma flat_map_nothing {A B : Type} (l : list A) :
  flat_map (fun _ : A => @nil B) l = [].
Proof. induction l as [|a l IH]; [reflexivity | exact IH]. Qed.

Lemma walk_stdout_exec config envp d path n exe :
  get_executable config = Some exe ->
  stdout_of (trace_of (Walk config envp path d n)) = [].
Proof.
  intros Hexe.
  rewrite <- (flat_map_nothing (candidates path d)).
  unfold stdout_of. apply walk_observe; try reflexivity.
  intros file p k. rewrite flat_map_app, matches_quiet by reflexivity.
  destruct (would_match _ _ _); [|reflexivity].
  apply process_trace_cases; intros; try congruence; try reflexivity.
  destruct (sys_execve exe0), (sys_waitpid pid); reflexivity.
Qed.

Lemma no_predicate_would_match config e :
  no_predicate config = true ->
  would_match sys_stat config e = stat_succeeds sys_stat (snd e).
Proof.
  unfold no_predicate, would_match, cheap_checks_pass, stat_checks_pass, stat_succeeds.
  intros H. apply andb_prop in H as [H Hnl]. apply andb_prop in H as [H Hsz].
  apply andb_prop in H as [Hino Hname].
  rewrite Hino, Hsz, Hnl. destruct (name config); [discriminate|].
  destruct (sys_stat (snd e)); reflexivity.
Qed.

Lemma matches_result config file path n :
  result_of (Matches config file path n) = done (would_match sys_stat config (file, path)).
Proof.
  rewrite matches_run. unfold would_match. cbn [fst snd].
  destruct (cheap_checks_pass config file); [destruct (sys_stat path)|]; reflexivity.
Qed.

Lemma matches_stat_calls config file path n :
  stat_calls (trace_of (Matches config file path n)) =
  if cheap_checks_pass config file then [path] else [].
Proof.
  rewrite matches_run.
  destruct (cheap_checks_pass config file); [destruct (sys_stat path)|]; reflexivity.
Qed.

(** ** The program as a whole *)

Lemma main_total argv envp : total (Main argv envp).
Proof.
  unfold main.
  destruct (Z.of_nat (List.length argv) <? 2).
  - apply total_bind; [apply total_emit | intros; apply total_ret].
  - destruct (configuration_ctor u argv) as [what|config].
    + apply total_bind; [apply total_emit | intros; apply total_ret].
    + destruct (is_help config).
      * apply total_bind; [apply total_emit | intros; apply total_ret].
      * apply total_bind; [apply walk_total | intros; apply total_ret].
Qed.

(** ** A walk dispatches through the dispatcher *)

Lemma dispatch_all_cons config envp p rest n :
  trace_of (dispatch_all strerror sys_fork sys_execve sys_waitpid config envp (p :: rest) n) =
    (trace_of (Process config p envp n) ++
     trace_of (dispatch_all strerror sys_fork sys_execve sys_waitpid config envp rest
                 (forks_of (Process config p envp n))))%list
  /\ forks_of (dispatch_all strerror sys_fork sys_execve sys_waitpid config envp (p :: rest) n) =
     forks_of (dispatch_all strerror sys_fork sys_execve sys_waitpid config envp rest
                 (forks_of (Process config p envp n))).
Proof.
  cbn [dispatch_all].
  assert (Hdone : result_of (Process config p envp n) = done tt)
    by (rewrite process_run; reflexivity).
  destruct (trace_bind (Process config p envp)
              (fun _ => dispatch_all strerror sys_fork sys_execve sys_waitpid config envp rest)
              n tt Hdone) as (Ht & _ & Hf).
  split; assumption.
Qed.

Lemma dispatch_all_app config envp a b :
  forall n,
    trace_of (dispatch_all strerror sys_fork sys_execve sys_waitpid config envp (a ++ b) n) =
      (trace_of (dispatch_all strerror sys_fork sys_execve sys_waitpid config envp a n) ++
       trace_of (dispatch_all strerror sys_fork sys_execve sys_waitpid config envp b
                   (forks_of (dispatch_all strerror sys_fork sys_execve sys_waitpid
                                config envp a n))))%list
    /\ forks_of (dispatch_all strerror sys_fork sys_execve sys_waitpid config envp (a ++ b) n) =
       forks_of (dispatch_all strerror sys_fork sys_execve sys_waitpid config envp b
                   (forks_of (dispatch_all strerror sys_fork sys_execve sys_waitpid
                                config envp a n))).
Proof.
  induction a as [|p a IH]; intros n; [split; reflexivity|].
  cbn [app].
  destruct (dispatch_all_cons config envp p (a ++ b) n) as [-> ->].
  destruct (dispatch_all_cons config envp p a n) as [-> ->].
  destruct (IH (forks_of (Process config p envp n))) as [-> ->].
  split; [apply app_assoc | reflexivity].
Qed.

Lemma dispatch_events_app a b :
  dispatch_events (a ++ b) = (dispatch_events a ++ dispatch_events b)%list.
Proof. apply flat_map_app. Qed.

(** The dispatch events of a walk, and its count of forks, are those
    of the dispatcher called on the path of every candidate that
    satisfies every configured predicate, in order, once each. *)
Lemma walk_dispatches_through_process config envp d :
  forall path n,
    dispatch_events (trace_of (Walk config envp path d n)) =
      dispatch_events
        (trace_of (dispatch_all strerror sys_fork sys_execve sys_waitpid config envp
                     (map snd (filter (would_match sys_stat config) (candidates path d))) n))
    /\ forks_of (Walk config envp path d n) =
       forks_of (dispatch_all strerror sys_fork sys_execve sys_waitpid config envp
                   (map snd (filter (would_match sys_stat config) (candidates path d))) n).
Proof.
  induction d as [errno | es cl IHd] using dir_induction; intros path n.
  - split; reflexivity.
  - destruct (walk_opened_trace config envp path es cl n) as [-> ->].
    rewrite candidates_opened.
    assert (Hentries : forall k,
      dispatch_events (trace_of (WalkEntries config envp path es k)) =
        dispatch_events
          (trace_of (dispatch_all strerror sys_fork sys_execve sys_waitpid config envp
                       (map snd (filter (would_match sys_stat config)
                                        (flat_map (candidates_entry path) es))) k))
      /\ forks_of (WalkEntries config envp path es k) =
         forks_of (dispatch_all strerror sys_fork sys_execve sys_waitpid config envp
                     (map snd (filter (would_match sys_stat config)
                                      (flat_map (candidates_entry path) es))) k)).
    { clear n. induction IHd as [|e rest Hsub _ IHrest]; intros k; [split; reflexivity|].
      destruct (walk_entries_cons config envp path e rest k) as [-> ->].
      cbn [flat_map]. rewrite filter_app, map_app.
      destruct (dispatch_all_app config envp
                  (map snd (filter (would_match sys_stat config) (candidates_entry path e)))
                  (map snd (filter (would_match sys_stat config)
                                   (flat_map (candidates_entry path) rest))) k) as [-> ->].
      assert (Hentry :
        dispatch_events (trace_of (WalkEntry config envp path e k)) =
          dispatch_events
            (trace_of (dispatch_all strerror sys_fork sys_execve sys_waitpid config envp
                         (map snd (filter (would_match sys_stat config)
                                          (candidates_entry path e))) k))
        /\ forks_of (WalkEntry config envp path e k) =
           forks_of (dispatch_all strerror sys_fork sys_execve sys_waitpid config envp
                       (map snd (filter (would_match sys_stat config)
                                        (candidates_entry path e))) k)).
      { destruct e as [entry sub]. unfold candidates_entry. cbn [fst snd] in *.
        destruct (d_type entry =? DT_DIR) eqn:Hty.
        - rewrite walk_dir_run by assumption.
          destruct (is_dot (d_name entry)); [split; reflexivity | apply Hsub].
        - rewrite walk_file_run by assumption.
          unfold trace_of at 1, forks_of at 1. cbn [fst snd filter].
          rewrite dispatch_events_app.
          unfold dispatch_events at 1. rewrite matches_quiet by reflexivity.
          destruct (would_match sys_stat config (entry, (path ++ "/" ++ d_name entry)%string));
            cbn [map snd app].
          + destruct (dispatch_all_cons config envp (path ++ "/" ++ d_name entry) [] k)
              as [-> ->].
            cbn [dispatch_all]. unfold ret, trace_of at 3, forks_of at 3. cbn [fst snd].
            rewrite app_nil_r. split; reflexivity.
          + split; reflexivity. }
      destruct Hentry as [Het Hef]. rewrite !dispatch_events_app, Het, Hef.
      destruct (IHrest (forks_of (dispatch_all strerror sys_fork sys_execve sys_waitpid
                                    config envp
                                    (map snd (filter (would_match sys_stat config)
                                                     (candidates_entry path e))) k)))
        as [-> ->].
      split; reflexivity. }
    destruct (Hentries n) as [Ht Hf]. split; [|exact Hf].
    change (ev_opendir path :: ?l) with ([ev_opendir path] ++ l)%list.
    rewrite !dispatch_events_app, Ht.
    replace (dispatch_events (ev_closedir path :: _)) with (@nil event)
      by (destruct cl; reflexivity).
    rewrite app_nil_r. reflexivity.
Qed.

(** ** The claims about the matcher *)

(** C10: [optional::get] is only ever called on an optional whose
    value has been set.  In the model a call of [get] on an unset
    optional is the only source of [aborted] (last part); the
    matcher, the walker and the whole program never end in
    [aborted], whatever the configuration, the entry and the
    outside world are. *)
Theorem optional_get_is_guarded config envp file path d argv n :
  (exists b, result_of (Matches config file path n) = done b)
  /\ result_of (Walk config envp path d n) = done tt
  /\ (exists code, result_of (Main argv envp n) = done code)
  /\ (forall (T : Type) (junk : T) (k : nat),
        result_of (get_asserted (optional.fresh junk) k) = aborted).
Proof.
  split; [apply matches_total|].
  split; [apply walk_done|].
  split; [apply main_total|].
  reflexivity.
Qed.

(** C2, as amended: the matcher looks the status of [full_path] up
    exactly when the entry passes the inode and the name predicate
    (an unset predicate passes), and then once, whether or not a
    size or nlinks predicate is configured; the entry matches when
    it passes the cheap checks, the lookup succeeds and the checks
    on the status record pass. *)
Theorem stat_lookup_follows_cheap_checks config file path n :
  stat_calls (trace_of (Matches config file path n)) =
    (if cheap_checks_pass config file then [path] else [])
  /\ result_of (Matches config file path n) =
     done (would_match sys_stat config (file, path)).
Proof. split; [apply matches_stat_calls | apply matches_result]. Qed.

(** C3, as amended: with no predicate configured, an entry that is
    not a directory matches exactly when its status lookup succeeds;
    a walk dispatches every such entry it reaches once and no other,
    and without [-exec] it prints their paths, one a line, in the
    order of the enumeration.  Dispatching is the work of the
    dispatcher: what a walk writes to the standard output and does
    to processes is what [process] does when it is called on the
    path of each of these entries in turn, and on nothing else, so
    with [-exec] each child is given the path of its entry. *)
Theorem no_predicate_matches_when_stat_succeeds config envp file path root d n :
  no_predicate config = true ->
  result_of (Matches config file path n) = done (stat_succeeds sys_stat path)
  /\ dispatches (trace_of (Walk config envp root d n)) =
     map (fun _ => tt)
         (filter (fun e => stat_succeeds sys_stat (snd e)) (candidates root d))
  /\ stdout_of (trace_of (Walk config envp root d n)) =
     match get_executable config with
     | None =>
         map (fun e => snd e ++ nl)
             (filter (fun e => stat_succeeds sys_stat (snd e)) (candidates root d))
     | Some _ => []
     end
  /\ dispatch_events (trace_of (Walk config envp root d n)) =
     dispatch_events
       (trace_of (dispatch_all strerror sys_fork sys_execve sys_waitpid config envp
                    (map snd (filter (fun e => stat_succeeds sys_stat (snd e))
                                     (candidates root d))) n))
  /\ forks_of (Walk config envp root d n) =
     forks_of (dispatch_all strerror sys_fork sys_execve sys_waitpid config envp
                 (map snd (filter (fun e => stat_succeeds sys_stat (snd e))
                                  (candidates root d))) n).
Proof.
  intros Hno.
  assert (Hfilter :
    filter (would_match sys_stat config) (candidates root d) =
    filter (fun e => stat_succeeds sys_stat (snd e)) (candidates root d)).
  { apply filter_ext. intros e. apply no_predicate_would_match. exact Hno. }
  split; [|split; [|split]].
  - rewrite matches_result, (no_predicate_would_match config (file, path) Hno).
    reflexivity.
  - rewrite walk_dispatches, Hfilter. reflexivity.
  - destruct (get_executable config) as [exe|] eqn:Hexe.
    + apply (walk_stdout_exec _ _ _ _ _ exe Hexe).
    + rewrite walk_stdout, Hfilter by assumption. reflexivity.
  - rewrite <- Hfilter. apply walk_dispatches_through_process.
Qed.

(** ** The claims about the walker and the dispatcher *)


(** C5, as amended: with an executable configured, the dispatcher
    calls [fork] exactly once for a matched path.  When the call
    succeeds there is exactly one child; it calls [execve] on the
    executable with the two tokens executable and matched path and
    the environment, and the parent calls [waitpid] on that child,
    once, as its last system call before it returns.  When the call
    fails there is no child and nothing to wait for.  A walk calls
    [fork] once for every entry that matches, and when every
    [waitpid] succeeds it never has more than one child and leaves
    none. *)
Theorem dispatch_forks_once_and_waits config envp name exe n :
  get_executable config = Some exe ->
  fork_calls (trace_of (Process config name envp n)) = [sys_fork n]
  /\ result_of (Process config name envp n) = done tt
  /\ (forall pid,
        sys_fork n = inr pid ->
        execve_calls (trace_of (Process config name envp n)) =
          [(pid, exe, [exe; name], envp)]
        /\ waitpid_calls (trace_of (Process config name envp n)) =
           [(pid, sys_waitpid pid)]
        /\ exists before after,
            trace_of (Process config name envp n) =
            (ev_fork (inr pid) :: ev_execve pid exe [exe; name] envp ::
             before ++ ev_waitpid pid (sys_waitpid pid) :: after)%list
            /\ stderr_of after = match sys_waitpid pid with
                                 | Some errno =>
                                     ["The following error occurred: " ++ strerror errno ++ nl]
                                 | None => []
                                 end
            /\ List.length after = List.length (stderr_of after))
  /\ (forall errno,
        sys_fork n = inl errno ->
        execve_calls (trace_of (Process config name envp n)) = []
        /\ waitpid_calls (trace_of (Process config name envp n)) = [])
  /\ (forall d root k,
        List.length (fork_calls (trace_of (Walk config envp root d k))) =
        List.length (filter (would_match sys_stat config) (candidates root d)))
  /\ ((forall pid, sys_waitpid pid = None) ->
      forall d root k,
        (peak_children 0 (trace_of (Walk config envp root d k)) <= 1)%nat
        /\ children_left 0 (trace_of (Walk config envp root d k)) = 0%nat).
Proof.
  intros Hexe.
  assert (Hwalk : forall d root k,
    List.length (fork_calls (trace_of (Walk config envp root d k))) =
    List.length (filter (would_match sys_stat config) (candidates root d)))
    by (intros d root k; apply (walk_fork_calls config envp d root k exe Hexe)).
  rewrite process_run, Hexe. unfold trace_of, result_of, fst, snd.
  split; [|split; [reflexivity|split; [|split; [|split; [exact Hwalk|]]]]].
  - destruct (sys_fork n) as [errno|pid]; [reflexivity|].
    destruct (sys_execve exe), (sys_waitpid pid); reflexivity.
  - intros pid Hfork. rewrite Hfork.
    split; [destruct (sys_execve exe), (sys_waitpid pid); reflexivity|].
    split; [destruct (sys_execve exe), (sys_waitpid pid); reflexivity|].
    eexists. eexists. split; [reflexivity|].
    destruct (sys_waitpid pid); split; reflexivity.
  - intros errno Hfork. rewrite Hfork. split; reflexivity.
  - intros Hwait d root k.
    destruct (serial_walk config envp d root k Hwait 0%nat) as [Hleft Hpeak].
    split; assumption.
Qed.

Lemma candidates_not_directories d :
  forall path, Forall (fun e => (d_type (fst e) =? DT_DIR) = false) (candidates path d).
Proof.
  induction d as [errno | es cl IH] using dir_induction; intros path.
  - constructor.
  - rewrite candidates_opened.
    induction IH as [|[entry sub] rest Hsub _ IHrest]; [constructor|].
    cbn [flat_map]. apply Forall_app. split; [|exact IHrest].
    unfold candidates_entry. cbn [fst snd] in *.
    destruct (d_type entry =? DT_DIR) eqn:Hty.
    + destruct (is_dot (d_name entry)); [constructor | apply Hsub].
    + constructor; [exact Hty | constructor].
Qed.

(** C9, as amended: an entry of type [DT_DIR] named [.] or [..] is
    skipped, its turn of the loop does nothing at all; every other
    entry of type [DT_DIR] is walked under the path of the
    directory, a slash and its name.  So a walk opens the
    directories [visited_dirs] lists and no other, and the matcher
    looks up entries that are not of type [DT_DIR] only. *)
Theorem dot_directories_are_skipped config envp path ino nm sub d n :
  WalkEntry config envp path (mkdirent ino DT_DIR nm, sub) n =
    (if is_dot nm then (done tt, n, [])
     else Walk config envp (path ++ "/" ++ nm) sub n)
  /\ opendir_calls (trace_of (Walk config envp path d n)) = visited_dirs path d
  /\ stat_calls (trace_of (Walk config envp path d n)) =
     map snd (filter (fun e => cheap_checks_pass config (fst e)) (candidates path d))
  /\ Forall (fun e => (d_type (fst e) =? DT_DIR) = false) (candidates path d).
Proof.
  split; [|split; [apply walk_opendir_calls | split; [apply walk_stat_calls|]]].
  - rewrite walk_dir_run by reflexivity. reflexivity.
  - apply candidates_not_directories.
Qed.

(** ** The command line *)

Lemma list_pair_ind {A : Type} (P : list A -> Prop) :
  P [] -> (forall x, P [x]) -> (forall x y l, P l -> P (x :: y :: l)) ->
  forall l, P l.
Proof.
  intros Hnil Hone Hstep l.
  assert (H : P l /\ forall x, P (x :: l)).
  { induction l as [|a l [IH1 IH2]]; split; auto. }
  apply H.
Qed.

(** Option pairs that are scanned without an error and without
    meeting [-help] are scanned to their end. *)
Lemma scan_options_app pre rest :
  forall c c',
    scan_options u pre c = inr c' -> help c' = false ->
    scan_options u (pre ++ rest) c = scan_options u rest c'.
Proof.
  induction pre as [|x|option value l IH] using list_pair_ind; intros c c' Hscan Hhelp.
  - injection Hscan as <-. reflexivity.
  - cbn [scan_options] in Hscan. destruct (streq x "-help").
    + injection Hscan as <-. discriminate.
    + discriminate.
  - cbn [scan_options app] in *.
    destruct (streq option "-help").
    { injection Hscan as <-. discriminate. }
    destruct (streq option "-inum").
    { destruct (parse_num value option); [discriminate | eauto]. }
    destruct (streq option "-name"); [eauto|].
    destruct (streq option "-size").
    { destruct (get_size (junk_type u) value); [discriminate | eauto]. }
    destruct (streq option "-nlinks").
    { destruct (parse_num value option); [discriminate | eauto]. }
    destruct (streq option "-exec"); [eauto | discriminate].
Qed.

Lemma main_with_options prog root args envp n :
  streq root "-help" = false ->
  Main (prog :: root :: args) envp n =
  match scan_options u args (fresh_configuration u) with
  | inl what => (done EXIT_FAILURE, n, [ev_stderr what])
  | inr config =>
      if help config then (done EXIT_SUCCESS, n, [ev_stdout usage])
      else
        (Walk config envp root (file_system root) ;; ret 0) n
  end.
Proof.
  intros Hroot. unfold main, configuration_ctor.
  replace (Z.of_nat (List.length (prog :: root :: args)) <? 2) with false
    by (symmetry; apply Z.ltb_ge; cbn [List.length]; lia).
  cbn [nth skipn]. rewrite Hroot.
  destruct (scan_options u args (fresh_configuration u)) as [what|config];
    [reflexivity|].
  unfold is_help. destruct (help config); reflexivity.
Qed.

(** C8, as amended: [-help] as the first argument, or at an option
    position that the scan reaches (every option pair before it is
    accepted), makes the program print the usage text and exit with
    status 0, whatever follows; with no argument at all the program
    prints the usage text and exits with a failure status.  In all
    three cases the usage text is all the program does. *)
Theorem help_short_circuits prog root pre post argv envp c n :
  Main (prog :: "-help" :: post) envp n = (done EXIT_SUCCESS, n, [ev_stdout usage])
  /\ (streq root "-help" = false ->
      scan_options u pre (fresh_configuration u) = inr c -> help c = false ->
      Main (prog :: root :: pre ++ "-help" :: post) envp n =
      (done EXIT_SUCCESS, n, [ev_stdout usage]))
  /\ ((List.length argv < 2)%nat ->
      Main argv envp n = (done EXIT_FAILURE, n, [ev_stdout usage])).
Proof.
  split; [|split].
  - unfold main, configuration_ctor.
    replace (Z.of_nat (List.length (prog :: "-help" :: post)) <? 2) with false
      by (symmetry; apply Z.ltb_ge; cbn [List.length]; lia).
    reflexivity.
  - intros Hroot Hscan Hhelp.
    rewrite main_with_options by assumption.
    rewrite (scan_options_app pre ("-help" :: post) _ c Hscan Hhelp).
    reflexivity.
  - intros Hlen. unfold main.
    replace (Z.of_nat (List.length argv) <? 2) with true
      by (symmetry; apply Z.ltb_lt; lia).
    reflexivity.
Qed.

(** ** Numbers on the command line *)

Lemma digit_is_plain c :
  isdigit c = true ->
  isspace c = false /\ Ascii.eqb c "-" = false /\ Ascii.eqb c "+" = false
  /\ Ascii.eqb c "=" = false.
Proof.
  destruct c as [[] [] [] [] [] [] [] []]; vm_compute; intros H;
    try discriminate H; repeat split.
Qed.

Lemma digits_value_stops acc rest :
  isdigit (char_at rest 0) = false -> digits_value acc rest = acc.
Proof. destruct rest as [|c r]; cbn; [reflexivity | intros ->; reflexivity]. Qed.

Lemma digits_value_app digits rest :
  only_digits digits = true -> isdigit (char_at rest 0) = false ->
  forall acc, digits_value acc (digits ++ rest) = digits_value acc digits.
Proof.
  intros Hd Hrest. induction digits as [|c r IH]; intros acc.
  - cbn. apply digits_value_stops. exact Hrest.
  - cbn in Hd |- *. apply andb_prop in Hd as [Hc Hr]. rewrite Hc. apply IH. exact Hr.
Qed.

(** A value that starts with digits is read as the number its
    longest run of digits stands for; what follows is not looked
    at. *)
Lemma stoull_digits digits rest :
  unsigned_integer digits = true -> isdigit (char_at rest 0) = false ->
  digits_value 0 digits <= ULLONG_MAX ->
  stoull (digits ++ rest) = converted (digits_value 0 digits).
Proof.
  unfold unsigned_integer. intros Hd Hrest Hmax.
  apply andb_prop in Hd as [Hne Hd].
  destruct digits as [|c r]; [discriminate|].
  pose proof Hd as Hd'. cbn in Hd'. apply andb_prop in Hd' as [Hc _].
  destruct (digit_is_plain c Hc) as (Hsp & Hminus & Hplus & _).
  unfold stoull. cbn [append skip_space]. rewrite Hsp.
  cbn [read_sign]. rewrite Hminus, Hplus.
  cbn [char_at]. rewrite Hc.
  change (String c (r ++ rest)) with (String c r ++ rest).
  rewrite digits_value_app by assumption.
  destruct (digits_value 0 (String c r) >? ULLONG_MAX) eqn:Hgt; [|reflexivity].
  apply Z.gtb_lt in Hgt. lia.
Qed.

Lemma parse_num_unreadable value option :
  unreadable_number value = true ->
  parse_num value option =
  inl ("Value of " ++ option ++ " is invalid: " ++ value ++ ", " ++ stoull_what).
Proof.
  unfold unreadable_number, parse_num, stoull.
  destruct (read_sign (skip_space value)) as [negative body]. cbn [snd].
  destruct (isdigit (char_at body 0)); cbn [negb orb]; [|reflexivity].
  intros ->. reflexivity.
Qed.

(** C6, as amended: the value of a numeric option is read by
    [std::stoull].  It is a configuration error when no decimal
    digit follows its leading white space and optional sign, or
    when the digits found there stand for more than 2^64 - 1: the
    error names the option and the value, and for [-inum] and
    [-nlinks] the program writes it to the diagnostic stream and
    exits with a failure status without doing anything else.  A
    value that starts with digits is accepted as the number its
    longest run of digits stands for, whatever follows the
    digits. *)
Theorem numeric_values_are_read_by_stoull
        prog root pre opt value post envp c n option digits rest :
  (unreadable_number value = true ->
   parse_num value option =
   inl ("Value of " ++ option ++ " is invalid: " ++ value ++ ", " ++ stoull_what))
  /\ (unsigned_integer digits = true -> isdigit (char_at rest 0) = false ->
      digits_value 0 digits <= ULLONG_MAX ->
      parse_num (digits ++ rest) option = inr (digits_value 0 digits))
  /\ (streq root "-help" = false ->
      scan_options u pre (fresh_configuration u) = inr c -> help c = false ->
      opt = "-inum" \/ opt = "-nlinks" ->
      unreadable_number value = true ->
      Main (prog :: root :: pre ++ opt :: value :: post) envp n =
      (done EXIT_FAILURE, n,
       [ev_stderr ("Value of " ++ opt ++ " is invalid: " ++ value ++ ", " ++ stoull_what)])).
Proof.
  split; [apply parse_num_unreadable|]. split.
  - intros Hd Hrest Hmax. unfold parse_num.
    rewrite stoull_digits by assumption. reflexivity.
  - intros Hroot Hscan Hhelp Hopt Hbad.
    rewrite main_with_options by assumption.
    rewrite (scan_options_app pre (opt :: value :: post) _ c Hscan Hhelp).
    destruct Hopt as [-> | ->]; cbn [scan_options];
      change (streq _ "-help") with false; cbv iota.
    + change (streq "-inum" "-inum") with true. cbv iota.
      rewrite parse_num_unreadable by assumption. reflexivity.
    + change (streq "-nlinks" "-inum") with false.
      change (streq "-nlinks" "-name") with false.
      change (streq "-nlinks" "-size") with false.
      change (streq "-nlinks" "-nlinks") with true. cbv iota.
      rewrite parse_num_unreadable by assumption. reflexivity.
Qed.

Lemma char_at_advance value n : char_at (advance value n) 0 = char_at value n.
Proof.
  revert value; induction n as [|n IH]; intros value.
  - destruct value; reflexivity.
  - destruct value as [|c r]; [reflexivity|]. cbn [advance char_at]. apply IH.
Qed.

Lemma strlen_zero s : (strlen s =? 0)%nat = String.eqb s "".
Proof. destruct s; reflexivity. Qed.

Lemma get_size_rejects uninit value :
  size_rejected value = true -> exists msg, get_size uninit value = inl msg.
Proof.
  unfold size_rejected, get_size, get_size_sign.
  destruct (isdigit (char_at value 0)) eqn:Hdigit; cbn [negb].
  - intros Hbad. cbn [advance].
    destruct ((strlen value =? 0)%nat || Ascii.eqb (char_at value 0) "-");
      [eexists; reflexivity|].
    rewrite parse_num_unreadable by assumption. eexists; reflexivity.
  - destruct (Ascii.eqb (char_at value 0) "+") eqn:Hplus; cbn [orb].
    { rewrite <- (char_at_advance value 1), strlen_zero. intros Hbad.
      destruct (String.eqb (advance value 1) "" || Ascii.eqb (char_at (advance value 1) 0) "-");
        [eexists; reflexivity|]. cbn [orb] in Hbad.
      rewrite parse_num_unreadable by assumption. eexists; reflexivity. }
    destruct (Ascii.eqb (char_at value 0) "-") eqn:Hminus; cbn [orb].
    { rewrite <- (char_at_advance value 1), strlen_zero. intros Hbad.
      destruct (String.eqb (advance value 1) "" || Ascii.eqb (char_at (advance value 1) 0) "-");
        [eexists; reflexivity|]. cbn [orb] in Hbad.
      rewrite parse_num_unreadable by assumption. eexists; reflexivity. }
    destruct (Ascii.eqb (char_at value 0) "=") eqn:Heq.
    { rewrite <- (char_at_advance value 1), strlen_zero. intros Hbad.
      destruct (String.eqb (advance value 1) "" || Ascii.eqb (char_at (advance value 1) 0) "-");
        [eexists; reflexivity|]. cbn [orb] in Hbad.
      rewrite parse_num_unreadable by assumption. eexists; reflexivity. }
    intros _. eexists; reflexivity.
Qed.

Lemma get_size_accepts uninit sg digits rest :
  In sg [""; "="; "+"; "-"] ->
  unsigned_integer digits = true -> isdigit (char_at rest 0) = false ->
  digits_value 0 digits <= ULLONG_MAX ->
  exists type, get_size uninit (sg ++ digits ++ rest) =
               inr (wrap_s64 (digits_value 0 digits), type).
Proof.
  intros Hsg Hd Hrest Hmax.
  pose proof (stoull_digits digits rest Hd Hrest Hmax) as Hstoull.
  assert (Hfirst : isdigit (char_at (digits ++ rest) 0) = true
                   /\ String.eqb (digits ++ rest) "" = false).
  { unfold unsigned_integer in Hd. apply andb_prop in Hd as [Hne Hd].
    destruct digits as [|c r]; [discriminate Hne|].
    cbn in Hd |- *. apply andb_prop in Hd as [Hc _]. split; [exact Hc | reflexivity]. }
  destruct Hfirst as [Hfirst Hne].
  destruct (digit_is_plain _ Hfirst) as (_ & Hminus & _ & _).
  unfold get_size, get_size_sign.
  cbn [In] in Hsg. destruct Hsg as [<- | [<- | [<- | [<- | []]]]].
  - cbn [append]. rewrite Hfirst. cbn [negb advance].
    rewrite strlen_zero, Hne, Hminus. cbn [orb].
    unfold parse_num. rewrite Hstoull. eexists; reflexivity.
  - cbn [append char_at]. change (isdigit "=") with false. cbn [negb].
    change (Ascii.eqb "=" "+") with false. change (Ascii.eqb "=" "-") with false.
    change (Ascii.eqb "=" "=") with true. cbv iota. cbn [advance].
    rewrite strlen_zero, Hne, Hminus. cbn [orb].
    unfold parse_num. rewrite Hstoull. eexists; reflexivity.
  - cbn [append char_at]. change (isdigit "+") with false. cbn [negb].
    change (Ascii.eqb "+" "+") with true. cbv iota. cbn [advance].
    rewrite strlen_zero, Hne, Hminus. cbn [orb].
    unfold parse_num. rewrite Hstoull. eexists; reflexivity.
  - cbn [append char_at]. change (isdigit "-") with false. cbn [negb].
    change (Ascii.eqb "-" "+") with false. change (Ascii.eqb "-" "-") with true.
    cbv iota. cbn [advance].
    rewrite strlen_zero, Hne, Hminus. cbn [orb].
    unfold parse_num. rewrite Hstoull. eexists; reflexivity.
Qed.

(** C7, as amended: a [-size] value is turned down when its first
    character is neither a digit nor one of [=], [+] and [-], when
    nothing or a [-] follows that sign, and when no number can be
    read after the sign (no digit after white space and an optional
    sign, or more than 2^64 - 1); [abc], the empty value and [-]
    are such values.  The program then writes the error to the
    diagnostic stream and exits with a failure status, and that is
    all it does: no directory is opened.  What follows the digits
    is not looked at: a value made of an optional sign, digits and
    anything that does not start with a digit is accepted, with the
    digits as its threshold. *)
Theorem malformed_size_values_are_rejected
        prog root pre value post envp c n uninit sg digits rest :
  (size_rejected value = true -> exists msg, get_size uninit value = inl msg)
  /\ (size_rejected "abc" = true /\ size_rejected "" = true /\ size_rejected "-" = true)
  /\ (streq root "-help" = false ->
      scan_options u pre (fresh_configuration u) = inr c -> help c = false ->
      size_rejected value = true ->
      exists msg,
        Main (prog :: root :: pre ++ "-size" :: value :: post) envp n =
        (done EXIT_FAILURE, n, [ev_stderr msg]))
  /\ (In sg [""; "="; "+"; "-"] ->
      unsigned_integer digits = true -> isdigit (char_at rest 0) = false ->
      digits_value 0 digits <= ULLONG_MAX ->
      exists type, get_size uninit (sg ++ digits ++ rest) =
                   inr (wrap_s64 (digits_value 0 digits), type)).
Proof.
  split; [apply get_size_rejects|].
  split; [repeat split|].
  split; [|apply get_size_accepts].
  intros Hroot Hscan Hhelp Hbad.
  destruct (get_size_rejects (junk_type u) value Hbad) as [msg Hmsg].
  exists msg.
  rewrite main_with_options by assumption.
  rewrite (scan_options_app pre ("-size" :: value :: post) _ c Hscan Hhelp).
  cbn [scan_options].
  change (streq "-size" "-help") with false.
  change (streq "-size" "-inum") with false.
  change (streq "-size" "-name") with false.
  change (streq "-size" "-size") with true. cbv iota.
  rewrite Hmsg. reflexivity.
Qed.

(** ** More about the command line *)

(** X1: when the first argument is not [-help] and the option pairs
    before it are accepted without meeting [-help], an option that
    is the last argument and has no value after it is a
    configuration error, whether the option is known or not (only
    [-help] needs no value): the program writes [Value of <option>
    wasn't found] to the diagnostic stream and exits with a failure
    status, and that is all it does. *)
Theorem option_without_value_is_an_error prog root pre option envp c n :
  streq root "-help" = false ->
  scan_options u pre (fresh_configuration u) = inr c -> help c = false ->
  streq option "-help" = false ->
  Main (prog :: root :: pre ++ [option]) envp n =
  (done EXIT_FAILURE, n, [ev_stderr ("Value of " ++ option ++ " wasn't found")]).
Proof.
  intros Hroot Hscan Hhelp Hopt.
  rewrite main_with_options by assumption.
  rewrite (scan_options_app pre [option] _ c Hscan Hhelp).
  cbn [scan_options]. rewrite Hopt. reflexivity.
Qed.

(** X2: when the first argument is not [-help] and the option pairs
    before it are accepted without meeting [-help], an option that
    is none of [-help], [-inum], [-name], [-size], [-nlinks] and
    [-exec] is a configuration error, whatever its value is: the
    program writes [Unknown option <option>] to the diagnostic
    stream and exits with a failure status, and that is all it
    does. *)
Theorem unknown_option_is_an_error prog root pre option value post envp c n :
  streq root "-help" = false ->
  scan_options u pre (fresh_configuration u) = inr c -> help c = false ->
  known_option option = false ->
  Main (prog :: root :: pre ++ option :: value :: post) envp n =
  (done EXIT_FAILURE, n, [ev_stderr ("Unknown option " ++ option)]).
Proof.
  intros Hroot Hscan Hhelp Hopt.
  rewrite main_with_options by assumption.
  rewrite (scan_options_app pre (option :: value :: post) _ c Hscan Hhelp).
  unfold known_option in Hopt.
  repeat (apply orb_false_elim in Hopt as [Hopt ?]).
  cbn [scan_options].
  repeat match goal with H : streq option _ = false |- _ => rewrite H; clear H end.
  reflexivity.
Qed.

(** X3: the options are taken in order and a later [-name] or [-exec]
    replaces an earlier one: after option pairs that are accepted, a
    final pair [-name v] (or [-exec v]) gives the configuration of
    those pairs with the name (the executable) set to [v], whatever
    [v] is, and changes nothing else. *)
Theorem last_name_and_exec_win prog root pre v c :
  streq root "-help" = false ->
  scan_options u pre (fresh_configuration u) = inr c -> help c = false ->
  configuration_ctor u (prog :: root :: pre ++ ["-name"; v]) = inr (with_name v c)
  /\ configuration_ctor u (prog :: root :: pre ++ ["-exec"; v]) = inr (with_executable v c).
Proof.
  intros Hroot Hscan Hhelp. unfold configuration_ctor. cbn [nth skipn].
  rewrite Hroot.
  rewrite (scan_options_app pre ["-name"; v] _ c Hscan Hhelp).
  rewrite (scan_options_app pre ["-exec"; v] _ c Hscan Hhelp).
  split; reflexivity.
Qed.

(** X4: once the command line is accepted and asks for no help, the
    program does the walk from its first argument and nothing else,
    and exits with status 0 whatever the walk met: a root that does
    not open, failed lookups, failed dispatches. *)
Theorem accepted_command_line_exits_with_success prog root args envp config n :
  streq root "-help" = false ->
  scan_options u args (fresh_configuration u) = inr config -> help config = false ->
  Main (prog :: root :: args) envp n =
  (done 0,
   forks_of (Walk config envp root (file_system root) n),
   trace_of (Walk config envp root (file_system root) n)).
Proof.
  intros Hroot Hscan Hhelp.
  rewrite main_with_options, Hscan, Hhelp by assumption.
  rewrite bind_run.
  pose proof (walk_done config envp root (file_system root) n) as Hdone.
  destruct (Walk config envp root (file_system root) n) as [[r k] t].
  unfold result_of in Hdone; cbn [fst] in Hdone; subst r.
  unfold forks_of, trace_of, ret. cbn [fst snd]. rewrite app_nil_r. reflexivity.
Qed.

(** X5: a run that exits with a failure status has not touched the
    file system and has started no process: all it did was print the
    usage text, or write one message to the diagnostic stream. *)
Theorem failing_run_does_nothing_else argv envp n :
  result_of (Main argv envp n) = done EXIT_FAILURE ->
  forks_of (Main argv envp n) = n
  /\ (trace_of (Main argv envp n) = [ev_stdout usage]
      \/ exists msg, trace_of (Main argv envp n) = [ev_stderr msg]).
Proof.
  unfold main.
  destruct (Z.of_nat (List.length argv) <? 2).
  { intros _. split; [reflexivity | left; reflexivity]. }
  destruct (configuration_ctor u argv) as [what|config].
  { intros _. split; [reflexivity | right; exists what; reflexivity]. }
  destruct (is_help config).
  { intros H. discriminate H. }
  rewrite bind_run.
  pose proof (walk_done config envp (nth 1 argv "") (file_system (nth 1 argv "")) n)
    as Hdone.
  destruct (Walk config envp (nth 1 argv "") (file_system (nth 1 argv "")) n)
    as [[r k] t].
  unfold result_of in Hdone; cbn [fst] in Hdone; subst r.
  intros H. discriminate H.
Qed.

(** ** More about the matcher *)

Lemma size_holds_compares filter sz :
  size_holds filter sz = true <-> compares (snd filter) sz (fst filter).
Proof.
  unfold size_holds, compares. destruct (snd filter).
  - apply Z.eqb_eq.
  - apply Z.ltb_lt.
  - apply Z.ltb_lt.
  - split; intros _; [exact I | reflexivity].
Qed.

(** X6: the matcher is the conjunction of the predicates that are
    set.  It answers [true] exactly when the status lookup on the
    path succeeds and, for the record found: the inode of the entry
    is the one asked for, its name is the one asked for character by
    character, its size compares with the threshold as the comparator
    says (a stored comparator that is none of the three enumerators
    asks for nothing, the [switch] has no [default]), and its link
    count is the one asked for; a predicate that is not set asks for
    nothing. *)
Theorem matches_iff_every_set_predicate_holds config file path n :
  result_of (Matches config file path n) = done true
  <-> exists st, sys_stat path = inr st /\ satisfies config file st.
Proof.
  rewrite matches_result.
  unfold would_match, cheap_checks_pass, stat_checks_pass, satisfies, optional.empty.
  cbn [fst snd].
  split.
  - intros H. injection H as H.
    apply andb_prop in H as [Hcheap Hstat].
    apply andb_prop in Hcheap as [Hino Hname].
    destruct (sys_stat path) as [errno|st]; [discriminate|].
    apply andb_prop in Hstat as [Hsize Hnl].
    exists st. split; [reflexivity|]. repeat split.
    + intros Hset. rewrite Hset in Hino. cbn in Hino.
      apply Z.eqb_eq in Hino. symmetry. exact Hino.
    + intros nm Hnm. rewrite Hnm in Hname. apply String.eqb_eq. exact Hname.
    + intros Hset. rewrite Hset in Hsize. cbn in Hsize.
      apply size_holds_compares. exact Hsize.
    + intros Hset. rewrite Hset in Hnl. cbn in Hnl. apply Z.eqb_eq. exact Hnl.
  - intros (st & Hstat & Hino & Hname & Hsize & Hnl). rewrite Hstat. f_equal.
    repeat (apply andb_true_intro; split).
    + destruct (optional.is_set (inode config)); [|reflexivity].
      cbn. apply Z.eqb_eq. symmetry. apply Hino. reflexivity.
    + destruct (name config) as [nm|]; [|reflexivity].
      apply String.eqb_eq. apply Hname. reflexivity.
    + destruct (optional.is_set (size config)); [|reflexivity].
      cbn. apply size_holds_compares. apply Hsize. reflexivity.
    + destruct (optional.is_set (nlinks config)); [|reflexivity].
      cbn. apply Z.eqb_eq. apply Hnl. reflexivity.
Qed.

(** X7: the matcher decides and reports, it does not dispatch.  It
    never writes to the standard output and never calls [fork],
    [execve], [waitpid], [opendir] or [closedir]; it writes to the
    diagnostic stream exactly when the entry passes the inode and
    name predicates and the status lookup fails, and then the one
    line that names the path and the error. *)
Theorem matcher_only_looks_up_and_reports config file path n :
  forks_of (Matches config file path n) = n
  /\ stdout_of (trace_of (Matches config file path n)) = []
  /\ fork_calls (trace_of (Matches config file path n)) = []
  /\ execve_calls (trace_of (Matches config file path n)) = []
  /\ waitpid_calls (trace_of (Matches config file path n)) = []
  /\ opendir_calls (trace_of (Matches config file path n)) = []
  /\ closedir_calls (trace_of (Matches config file path n)) = []
  /\ stderr_of (trace_of (Matches config file path n)) =
     (if cheap_checks_pass config file then
        match sys_stat path with
        | inl errno => ["Cannot check file " ++ path ++ ": " ++ strerror errno ++ nl]
        | inr _ => []
        end
      else []).
Proof.
  rewrite matches_run.
  destruct (cheap_checks_pass config file); [destruct (sys_stat path)|];
    repeat split.
Qed.

(** ** More about the walker *)

Lemma closed_dirs_opened path es cl :
  closed_dirs path (opened es cl) = (flat_map (closed_entry path) es ++ [path])%list.
Proof.
  simpl. f_equal. induction es as [|[entry sub] rest IH]; [reflexivity|].
  simpl. unfold closed_entry at 1. simpl. rewrite IH. reflexivity.
Qed.

Lemma process_closedir_calls config name envp n :
  closedir_calls (trace_of (Process config name envp n)) = [].
Proof.
  apply process_trace_cases; intros; try reflexivity.
  destruct (sys_execve exe), (sys_waitpid pid); reflexivity.
Qed.

(** X8: a walk closes every directory it has opened, once, after it
    has dealt with everything below it, and closes nothing else: the
    directories closed are, in order, those the tree says open, each
    after its subdirectories. *)
Theorem every_opened_directory_is_closed config envp d :
  forall path n,
    closedir_calls (trace_of (Walk config envp path d n)) = closed_dirs path d.
Proof.
  walk_induction config envp d path n; [reflexivity|].
  rewrite closed_dirs_opened. unfold closedir_calls.
  cbn [flat_map app]. rewrite flat_map_app. cbn [flat_map].
  replace (flat_map _ match cl with Some _ => _ | None => _ end) with (@nil string)
    by (destruct cl; reflexivity).
  cbn [app]. f_equal. fold closedir_calls.
  entries_induction config envp path IHd n e.
  unfold closedir_calls. rewrite flat_map_app. fold closedir_calls.
  cbn [flat_map]. rewrite IHrest. f_equal.
  destruct e as [entry sub]. unfold closed_entry. cbn [fst snd] in *.
  destruct (d_type entry =? DT_DIR) eqn:Hty; cbn [andb].
  - rewrite walk_dir_run by assumption.
    destruct (is_dot (d_name entry)); [reflexivity | apply Hsub].
  - rewrite walk_file_run by assumption. unfold trace_of at 1, snd.
    unfold closedir_calls. rewrite flat_map_app. fold closedir_calls.
    rewrite (matches_quiet (fun e => match e with ev_closedir p => [p] | _ => [] end))
      by reflexivity.
    destruct (would_match _ _ _); [apply process_closedir_calls | reflexivity].
Qed.

(** X9: a [closedir] that fails changes nothing but the diagnostic
    stream: the walk of the directory does what it does when
    [closedir] succeeds, then writes one line that names the path and
    the error, and returns as usual. *)
Theorem closedir_failure_only_adds_a_report config envp path es errno n :
  trace_of (Walk config envp path (opened es (Some errno)) n) =
    (trace_of (Walk config envp path (opened es None) n) ++
     [ev_stderr ("Cannot close " ++ path ++ ": " ++ strerror errno ++ nl)])%list
  /\ forks_of (Walk config envp path (opened es (Some errno)) n) =
     forks_of (Walk config envp path (opened es None) n)
  /\ result_of (Walk config envp path (opened es (Some errno)) n) = done tt.
Proof.
  destruct (walk_opened_trace config envp path es (Some errno) n) as [-> ->].
  destruct (walk_opened_trace config envp path es None n) as [-> ->].
  split; [|split; [reflexivity | apply walk_done]].
  cbn [app]. f_equal. rewrite <- app_assoc. reflexivity.
Qed.

Lemma process_modes config name envp n :
  match get_executable config with
  | None =>
      fork_calls (trace_of (Process config name envp n)) = []
      /\ execve_calls (trace_of (Process config name envp n)) = []
      /\ waitpid_calls (trace_of (Process config name envp n)) = []
  | Some _ => stdout_of (trace_of (Process config name envp n)) = []
  end.
Proof.
  rewrite process_run. unfold trace_of, snd.
  destruct (get_executable config) as [exe|]; [|repeat split].
  destruct (sys_fork n) as [errno|pid]; [reflexivity|].
  destruct (sys_execve exe), (sys_waitpid pid); reflexivity.
Qed.

(** X10: the two ways of dispatching exclude each other over a whole
    walk.  Without [-exec] the walk never calls [fork], [execve] or
    [waitpid] and leaves the count of forks as it was; with [-exec]
    the program itself writes nothing to the standard output. *)
Theorem dispatch_modes_exclude_each_other config envp d path n :
  match get_executable config with
  | None =>
      fork_calls (trace_of (Walk config envp path d n)) = []
      /\ execve_calls (trace_of (Walk config envp path d n)) = []
      /\ waitpid_calls (trace_of (Walk config envp path d n)) = []
  | Some _ => stdout_of (trace_of (Walk config envp path d n)) = []
  end.
Proof.
  pose proof (fun name k => process_modes config name envp k) as Hproc.
  destruct (get_executable config) as [exe|] eqn:Hexe.
  - apply (walk_stdout_exec config envp d path n exe Hexe).
  - assert (Hsilent : forall {X : Type} (f : event -> list X),
      (forall p, f (ev_opendir p) = []) -> (forall p, f (ev_closedir p) = []) ->
      (forall t, f (ev_stderr t) = []) -> (forall p, f (ev_stat p) = []) ->
      (forall name k, flat_map f (trace_of (Process config name envp k)) = []) ->
      flat_map f (trace_of (Walk config envp path d n)) = []).
    { intros X f Hopen Hclose Herr Hstat Hp.
      rewrite <- (flat_map_nothing (candidates path d)).
      apply walk_observe; try assumption.
      intros file p k. rewrite flat_map_app, matches_quiet by assumption.
      destruct (would_match _ _ _); [apply Hp | reflexivity]. }
    split; [|split]; apply Hsilent; try reflexivity; intros name k;
      destruct (Hproc name k) as (Hf & He & Hw); assumption.
Qed.

(** ** The paths of a walk *)

Lemma string_app_assoc (a b c : string) : ((a ++ b) ++ c = a ++ b ++ c)%string.
Proof. induction a as [|x a IH]; cbn; [reflexivity | rewrite IH; reflexivity]. Qed.

Lemma below_step root dir nm : below root dir -> below root (dir ++ "/" ++ nm).
Proof.
  intros [-> | [rest ->]]; right.
  - exists nm. reflexivity.
  - exists (rest ++ "/" ++ nm). rewrite !string_app_assoc. reflexivity.
Qed.

Lemma visited_dirs_below root d :
  forall path, below root path -> Forall (below root) (visited_dirs path d).
Proof.
  induction d as [errno | es cl IH] using dir_induction; intros path Hpath.
  - constructor; [exact Hpath | constructor].
  - rewrite visited_dirs_opened. constructor; [exact Hpath|].
    induction IH as [|[entry sub] rest Hsub _ IHrest]; [constructor|].
    cbn [flat_map]. apply Forall_app. split; [|exact IHrest].
    unfold visited_entry. cbn [fst snd] in *.
    destruct ((d_type entry =? DT_DIR) && negb (is_dot (d_name entry)));
      [apply Hsub, below_step, Hpath | constructor].
Qed.

Lemma candidates_shape root d :
  forall path,
    below root path ->
    Forall (fun e => exists dir, snd e = dir ++ "/" ++ d_name (fst e) /\ below root dir)
           (candidates path d).
Proof.
  induction d as [errno | es cl IH] using dir_induction; intros path Hpath.
  - constructor.
  - rewrite candidates_opened.
    induction IH as [|[entry sub] rest Hsub _ IHrest]; [constructor|].
    cbn [flat_map]. apply Forall_app. split; [|exact IHrest].
    unfold candidates_entry. cbn [fst snd] in *.
    destruct (d_type entry =? DT_DIR).
    + destruct (is_dot (d_name entry)); [constructor | apply Hsub, below_step, Hpath].
    + constructor; [|constructor]. exists path. split; [reflexivity | exact Hpath].
Qed.

Lemma Forall_filter_weak {A : Type} (P : A -> Prop) (f : A -> bool) (l : list A) :
  Forall P l -> Forall (fun a => P a /\ f a = true) (filter f l).
Proof.
  intros H. apply Forall_forall. intros a Ha. apply filter_In in Ha as [Ha Hf].
  split; [|exact Hf]. rewrite Forall_forall in H. apply H. exact Ha.
Qed.

(** X11: a walk stays below its root.  Every directory it opens is
    the root or a path made of the root, a slash and more; every path
    it looks up is made of such a directory, a slash and a name. *)
Theorem walk_stays_below_its_root config envp root d n :
  Forall (below root) (opendir_calls (trace_of (Walk config envp root d n)))
  /\ Forall (fun p => exists dir nm, p = dir ++ "/" ++ nm /\ below root dir)
            (stat_calls (trace_of (Walk config envp root d n))).
Proof.
  split.
  - rewrite walk_opendir_calls. apply visited_dirs_below. left. reflexivity.
  - rewrite walk_stat_calls. apply Forall_map.
    pose proof (candidates_shape root d root (or_introl eq_refl)) as Hshape.
    apply (Forall_filter_weak _ (fun e => cheap_checks_pass config (fst e))) in Hshape.
    revert Hshape. apply Forall_impl.
    intros e [(dir & Hsnd & Hdir) _]. exists dir, (d_name (fst e)). split; assumption.
Qed.

(** X12: every line the program prints during a walk is the path of
    an entry and a newline: a directory that is the root or below
    it, a slash and the name of the entry; and when [-name] is set
    that name is the one asked for. *)
Theorem printed_lines_are_paths_of_matching_names config envp root d n :
  Forall (fun line =>
            exists dir nm,
              line = dir ++ "/" ++ nm ++ nl /\ below root dir
              /\ forall want, name config = Some want -> nm = want)
         (stdout_of (trace_of (Walk config envp root d n))).
Proof.
  destruct (get_executable config) as [exe|] eqn:Hexe.
  - rewrite (walk_stdout_exec config envp d root n exe Hexe). constructor.
  - rewrite walk_stdout by assumption. apply Forall_map.
    pose proof (candidates_shape root d root (or_introl eq_refl)) as Hshape.
    apply (Forall_filter_weak _ (would_match sys_stat config)) in Hshape.
    revert Hshape. apply Forall_impl.
    intros e [(dir & Hsnd & Hdir) Hmatch]. exists dir, (d_name (fst e)).
    split; [rewrite Hsnd, !string_app_assoc; reflexivity|].
    split; [exact Hdir|].
    intros want Hwant. unfold would_match, cheap_checks_pass in Hmatch.
    rewrite Hwant in Hmatch.
    apply andb_prop in Hmatch as [Hcheap _]. apply andb_prop in Hcheap as [_ Hname].
    apply String.eqb_eq. exact Hname.
Qed.

(** ** More about numbers *)

Lemma digit_val_range c : isdigit c = true -> 0 <= digit_val c <= 9.
Proof.
  unfold isdigit, digit_val. intros H. apply andb_prop in H as [Hlo Hhi].
  apply N.leb_le in Hlo, Hhi. lia.
Qed.

Lemma digits_value_grows s : forall acc, 0 <= acc -> acc <= digits_value acc s.
Proof.
  induction s as [|c r IH]; intros acc Hacc; cbn [digits_value]; [lia|].
  destruct (isdigit c) eqn:Hc; [|lia].
  pose proof (digit_val_range c Hc).
  specialize (IH (10 * acc + digit_val c)). lia.
Qed.

Lemma wrap_s64_range z : - 2 ^ 63 <= wrap_s64 z < 2 ^ 63.
Proof.
  unfold wrap_s64. pose proof (Z.mod_pos_bound (z + 2 ^ 63) (2 ^ 64)). lia.
Qed.

(** X13: a number that [parse_num] accepts is a 64-bit unsigned
    value, so storing it as an inode number or a link count changes
    nothing. *)
Theorem parse_num_yields_uint64 value option v :
  parse_num value option = inr v ->
  0 <= v <= ULLONG_MAX /\ wrap_u64 v = v.
Proof.
  unfold parse_num, stoull.
  destruct (read_sign (skip_space value)) as [negative body].
  destruct (isdigit (char_at body 0)); [|discriminate].
  destruct (digits_value 0 body >? ULLONG_MAX) eqn:Hgt; [discriminate|].
  intros H. injection H as <-.
  assert (Hle : digits_value 0 body <= ULLONG_MAX).
  { destruct (Z.gtb_spec (digits_value 0 body) ULLONG_MAX); [discriminate | assumption]. }
  pose proof (digits_value_grows body 0 (Z.le_refl 0)) as Hge.
  unfold wrap_u64, ULLONG_MAX in *.
  destruct negative.
  - pose proof (Z.mod_pos_bound (- digits_value 0 body) (2 ^ 64)).
    split; [lia|]. apply Z.mod_mod. lia.
  - split; [lia|]. apply Z.mod_small. lia.
Qed.

Lemma string_app_nil (a : string) : (a ++ "")%string = a.
Proof. induction a as [|x a IH]; cbn; [reflexivity | rewrite IH; reflexivity]. Qed.

Lemma unsigned_integer_starts_with_digit digits :
  unsigned_integer digits = true -> isdigit (char_at digits 0) = true.
Proof.
  unfold unsigned_integer. intros H. apply andb_prop in H as [Hne Hd].
  destruct digits as [|c r]; [discriminate Hne|].
  cbn in Hd |- *. apply andb_prop in Hd as [Hc _]. exact Hc.
Qed.

(** X14: [std::stoull] reads a sign, so [parse_num] accepts one.  With
    a [+] before the digits the value is the number the digits stand
    for; with a [-] it is that number negated in 64-bit unsigned
    arithmetic, 2^64 minus the number: [-inum -5] asks for inode
    18446744073709551611. *)
Theorem parse_num_reads_a_sign digits option :
  unsigned_integer digits = true ->
  0 < digits_value 0 digits <= ULLONG_MAX ->
  parse_num (String "+" digits) option = inr (digits_value 0 digits)
  /\ parse_num (String "-" digits) option = inr (2 ^ 64 - digits_value 0 digits).
Proof.
  intros Hd [Hpos Hmax].
  pose proof (unsigned_integer_starts_with_digit digits Hd) as Hfirst.
  assert (Hgt : (digits_value 0 digits >? ULLONG_MAX) = false).
  { destruct (Z.gtb_spec (digits_value 0 digits) ULLONG_MAX); [lia | reflexivity]. }
  unfold parse_num, stoull. cbn [skip_space].
  change (isspace "+") with false. change (isspace "-") with false. cbv iota.
  cbn [read_sign].
  change (Ascii.eqb "+" "-") with false. change (Ascii.eqb "+" "+") with true.
  change (Ascii.eqb "-" "-") with true. cbv iota.
  rewrite Hfirst, Hgt. split; [reflexivity|].
  f_equal. unfold wrap_u64, ULLONG_MAX in *.
  symmetry. apply Z.mod_unique with (q := -1); lia.
Qed.

(** X15: the comparator of a [-size] value is decided by its first
    character alone ([+] is greater, [-] is less, anything else
    leaves it as the memory was), and the threshold is a 64-bit
    signed value that does not depend on that memory. *)
Theorem get_size_comparator_and_threshold uninit other value t type :
  get_size uninit value = inr (t, type) ->
  - 2 ^ 63 <= t < 2 ^ 63
  /\ type = (if Ascii.eqb (char_at value 0) "+" then GREATER
             else if Ascii.eqb (char_at value 0) "-" then LESS
             else uninit)
  /\ exists type', get_size other value = inr (t, type').
Proof.
  unfold get_size, get_size_sign.
  destruct (isdigit (char_at value 0)) eqn:Hdigit; cbn [negb].
  - destruct (digit_is_plain _ Hdigit) as (_ & Hminus & Hplus & _).
    rewrite Hminus, Hplus.
    destruct ((strlen (advance value 0) =? 0)%nat || false); [discriminate|].
    destruct (parse_num (advance value 0) "-size") as [msg|v]; [discriminate|].
    intros H. injection H as <- <-.
    split; [apply wrap_s64_range|]. split; [reflexivity | eexists; reflexivity].
  - destruct (Ascii.eqb (char_at value 0) "+").
    { destruct ((strlen (advance value 1) =? 0)%nat || Ascii.eqb (char_at value 1) "-");
        [discriminate|].
      destruct (parse_num (advance value 1) "-size") as [msg|v]; [discriminate|].
      intros H. injection H as <- <-.
      split; [apply wrap_s64_range|]. split; [reflexivity | eexists; reflexivity]. }
    destruct (Ascii.eqb (char_at value 0) "-").
    { destruct ((strlen (advance value 1) =? 0)%nat || Ascii.eqb (char_at value 1) "-");
        [discriminate|].
      destruct (parse_num (advance value 1) "-size") as [msg|v]; [discriminate|].
      intros H. injection H as <- <-.
      split; [apply wrap_s64_range|]. split; [reflexivity | eexists; reflexivity]. }
    destruct (Ascii.eqb (char_at value 0) "="); [|discriminate].
    destruct ((strlen (advance value 1) =? 0)%nat || Ascii.eqb (char_at value 1) "-");
      [discriminate|].
    destruct (parse_num (advance value 1) "-size") as [msg|v]; [discriminate|].
    intros H. injection H as <- <-.
    split; [apply wrap_s64_range|]. split; [reflexivity | eexists; reflexivity].
Qed.

(** ** From the command line to the matcher *)

Lemma stoull_only_digits digits :
  unsigned_integer digits = true -> digits_value 0 digits <= ULLONG_MAX ->
  stoull digits = converted (digits_value 0 digits).
Proof.
  intros Hd Hmax. rewrite <- (string_app_nil digits) at 1.
  apply stoull_digits; [assumption | reflexivity | assumption].
Qed.

Lemma get_size_signed uninit digits :
  unsigned_integer digits = true -> digits_value 0 digits <= ULLONG_MAX ->
  get_size uninit (String "+" digits) = inr (wrap_s64 (digits_value 0 digits), GREATER)
  /\ get_size uninit (String "-" digits) = inr (wrap_s64 (digits_value 0 digits), LESS).
Proof.
  intros Hd Hmax.
  pose proof (unsigned_integer_starts_with_digit digits Hd) as Hfirst.
  destruct (digit_is_plain _ Hfirst) as (_ & Hminus & _ & _).
  assert (Hne : String.eqb digits "" = false).
  { destruct digits; [discriminate Hfirst | reflexivity]. }
  unfold get_size, get_size_sign. cbn [char_at].
  change (isdigit "+") with false. change (isdigit "-") with false. cbn [negb].
  change (Ascii.eqb "+" "+") with true. change (Ascii.eqb "-" "+") with false.
  change (Ascii.eqb "-" "-") with true. cbv iota. cbn [advance].
  change (char_at (String "+" digits) 1) with (char_at digits 0).
  change (char_at (String "-" digits) 1) with (char_at digits 0).
  rewrite strlen_zero, Hne, Hminus. cbn [orb].
  unfold parse_num. rewrite stoull_only_digits by assumption.
  split; reflexivity.
Qed.

(** X16: [-inum N], with [N] written in digits and at most 2^64 - 1,
    finds that inode: the command line is accepted, and with the
    configuration it gives an entry matches exactly when its inode
    number is [N] and its status lookup succeeds. *)
Theorem inum_finds_that_inode prog root digits file path n :
  streq root "-help" = false ->
  unsigned_integer digits = true -> digits_value 0 digits <= ULLONG_MAX ->
  exists config,
    configuration_ctor u [prog; root; "-inum"; digits] = inr config
    /\ result_of (Matches config file path n) =
       done ((digits_value 0 digits =? d_ino file) && stat_succeeds sys_stat path).
Proof.
  intros Hroot Hd Hmax.
  exists (with_inode (digits_value 0 digits) (fresh_configuration u)). split.
  - unfold configuration_ctor. cbn [nth skipn scan_options]. rewrite Hroot.
    change (streq "-inum" "-help") with false.
    change (streq "-inum" "-inum") with true. cbv iota.
    unfold parse_num. rewrite stoull_only_digits by assumption.
    replace (wrap_u64 (digits_value 0 digits)) with (digits_value 0 digits);
      [reflexivity|].
    pose proof (digits_value_grows digits 0 (Z.le_refl 0)).
    unfold wrap_u64, ULLONG_MAX in *. symmetry. apply Z.mod_small. lia.
  - rewrite matches_result.
    unfold would_match, cheap_checks_pass, stat_checks_pass, stat_succeeds.
    cbn. rewrite andb_true_r. destruct (sys_stat path); reflexivity.
Qed.

(** X17: [-size +N] and [-size -N], with [N] written in digits and
    below 2^63, are strict comparisons with [N]: the command line is
    accepted, and an entry matches exactly when its status lookup
    succeeds and its size is greater than [N], respectively less
    than [N]. *)
Theorem signed_size_filters_compare_strictly prog root digits file path n :
  streq root "-help" = false ->
  unsigned_integer digits = true -> digits_value 0 digits < 2 ^ 63 ->
  exists greater less,
    configuration_ctor u [prog; root; "-size"; String "+" digits] = inr greater
    /\ configuration_ctor u [prog; root; "-size"; String "-" digits] = inr less
    /\ result_of (Matches greater file path n) =
       done match sys_stat path with
            | inr st => digits_value 0 digits <? st_size st
            | inl _ => false
            end
    /\ result_of (Matches less file path n) =
       done match sys_stat path with
            | inr st => st_size st <? digits_value 0 digits
            | inl _ => false
            end.
Proof.
  intros Hroot Hd Hsmall.
  assert (Hmax : digits_value 0 digits <= ULLONG_MAX) by (unfold ULLONG_MAX; lia).
  destruct (get_size_signed (junk_type u) digits Hd Hmax) as [Hplus Hminus].
  assert (Hwrap : wrap_s64 (digits_value 0 digits) = digits_value 0 digits).
  { pose proof (digits_value_grows digits 0 (Z.le_refl 0)).
    unfold wrap_s64. rewrite Z.mod_small by lia. lia. }
  rewrite Hwrap in Hplus, Hminus.
  exists (with_size (digits_value 0 digits, GREATER) (fresh_configuration u)),
         (with_size (digits_value 0 digits, LESS) (fresh_configuration u)).
  split; [|split; [|split]].
  - unfold configuration_ctor. cbn [nth skipn scan_options]. rewrite Hroot.
    change (streq "-size" "-help") with false.
    change (streq "-size" "-inum") with false.
    change (streq "-size" "-name") with false.
    change (streq "-size" "-size") with true. cbv iota.
    rewrite Hplus. reflexivity.
  - unfold configuration_ctor. cbn [nth skipn scan_options]. rewrite Hroot.
    change (streq "-size" "-help") with false.
    change (streq "-size" "-inum") with false.
    change (streq "-size" "-name") with false.
    change (streq "-size" "-size") with true. cbv iota.
    rewrite Hminus. reflexivity.
  - rewrite matches_result.
    unfold would_match, cheap_checks_pass, stat_checks_pass, size_holds.
    cbn. destruct (sys_stat path); [reflexivity|]. rewrite andb_true_r. reflexivity.
  - rewrite matches_result.
    unfold would_match, cheap_checks_pass, stat_checks_pass, size_holds.
    cbn. destruct (sys_stat path); [reflexivity|]. rewrite andb_true_r. reflexivity.
Qed.

(** X18: a threshold of 2^63 or more does not fit the signed size
    type and wraps: [-size +N] with such an [N] (at most 2^64 - 1) is
    accepted with the threshold [N] - 2^64, a negative number. *)
Theorem large_size_threshold_wraps uninit digits :
  unsigned_integer digits = true ->
  2 ^ 63 <= digits_value 0 digits <= ULLONG_MAX ->
  get_size uninit (String "+" digits) = inr (digits_value 0 digits - 2 ^ 64, GREATER)
  /\ get_size uninit (String "-" digits) = inr (digits_value 0 digits - 2 ^ 64, LESS).
Proof.
  intros Hd [Hbig Hmax].
  destruct (get_size_signed uninit digits Hd Hmax) as [-> ->].
  assert (Hwrap : wrap_s64 (digits_value 0 digits) = digits_value 0 digits - 2 ^ 64).
  { unfold wrap_s64, ULLONG_MAX in *.
    rewrite <- (Z.mod_unique (digits_value 0 digits + 2 ^ 63) (2 ^ 64) 1
                  (digits_value 0 digits - 2 ^ 63)); lia. }
  rewrite Hwrap. split; reflexivity.
Qed.

(** ** Entries one after the other *)

Lemma walk_entries_app config envp path a b :
  forall n,
    trace_of (WalkEntries config envp path (a ++ b) n) =
      (trace_of (WalkEntries config envp path a n) ++
       trace_of (WalkEntries config envp path b
                   (forks_of (WalkEntries config envp path a n))))%list
    /\ forks_of (WalkEntries config envp path (a ++ b) n) =
       forks_of (WalkEntries config envp path b
                   (forks_of (WalkEntries config envp path a n))).
Proof.
  induction a as [|e a IH]; intros n; [split; reflexivity|].
  cbn [app].
  destruct (walk_entries_cons config envp path e (a ++ b) n) as [-> ->].
  destruct (walk_entries_cons config envp path e a n) as [-> ->].
  destruct (IH (forks_of (WalkEntry config envp path e n))) as [-> ->].
  split; [apply app_assoc | reflexivity].
Qed.

(** X19: a subdirectory that does not open costs its two events, the
    [opendir] and one line on the diagnostic stream that names it and
    the error, and changes nothing else: the entries before it and
    after it in the same directory are handled exactly as they would
    be without it. *)
Theorem unreadable_subdirectory_costs_one_line
        config envp path a b cl ino nm errno n :
  is_dot nm = false ->
  exists before after,
    trace_of (Walk config envp path (opened (a ++ b) cl) n) = (before ++ after)%list
    /\ trace_of (Walk config envp path
                   (opened (a ++ (mkdirent ino DT_DIR nm, opendir_fails errno) :: b) cl) n) =
       (before ++
        [ev_opendir (path ++ "/" ++ nm);
         ev_stderr ("Cannot open " ++ (path ++ "/" ++ nm) ++ ": " ++ strerror errno ++ nl)] ++
        after)%list
    /\ forks_of (Walk config envp path
                   (opened (a ++ (mkdirent ino DT_DIR nm, opendir_fails errno) :: b) cl) n) =
       forks_of (Walk config envp path (opened (a ++ b) cl) n).
Proof.
  intros Hdot.
  set (locked := (mkdirent ino DT_DIR nm, opendir_fails errno)).
  assert (Hturn : forall k,
    WalkEntry config envp path locked k =
    (done tt, k,
     [ev_opendir (path ++ "/" ++ nm);
      ev_stderr ("Cannot open " ++ (path ++ "/" ++ nm) ++ ": " ++ strerror errno ++ nl)])).
  { intros k. unfold locked. rewrite walk_dir_run by reflexivity.
    cbn [d_name]. rewrite Hdot. apply recursive_walk_fails. }
  destruct (walk_opened_trace config envp path (a ++ b) cl n) as [-> ->].
  destruct (walk_opened_trace config envp path (a ++ locked :: b) cl n) as [-> ->].
  destruct (walk_entries_app config envp path a b n) as [-> ->].
  destruct (walk_entries_app config envp path a (locked :: b) n) as [-> ->].
  set (k := forks_of (WalkEntries config envp path a n)).
  destruct (walk_entries_cons config envp path locked b k) as [-> ->].
  rewrite Hturn. unfold trace_of at 4, forks_of at 2 4, fst, snd.
  exists (ev_opendir path :: trace_of (WalkEntries config envp path a n)).
  exists (trace_of (WalkEntries config envp path b k) ++
          ev_closedir path ::
          match cl with
          | Some e => [ev_stderr ("Cannot close " ++ path ++ ": " ++ strerror e ++ nl)]
          | None => []
          end)%list.
  split; [|split; [|reflexivity]].
  - cbn [app]. rewrite <- app_assoc. reflexivity.
  - cbn [app]. rewrite <- !app_assoc. reflexivity.
Qed.

(** ** What uninitialised memory can change *)

Lemma bind_ext {A B : Type} (m1 m2 : M A) (f1 f2 : A -> M B) n :
  m1 n = m2 n -> (forall a k, f1 a k = f2 a k) -> bind m1 f1 n = bind m2 f2 n.
Proof.
  intros Hm Hf. unfold bind. rewrite Hm.
  destruct (m2 n) as [[[a|] k] t]; [rewrite Hf|]; reflexivity.
Qed.

Lemma same_settings_matches c1 c2 file path n :
  same_settings c1 c2 -> Matches c1 file path n = Matches c2 file path n.
Proof.
  intros (_ & [Hi Hiv] & Hname & [Hs Hsv] & [Hn Hnv] & _).
  rewrite !matches_run.
  assert (Hcheap : cheap_checks_pass c1 file = cheap_checks_pass c2 file).
  { unfold cheap_checks_pass, optional.empty. rewrite <- Hi, <- Hname.
    destruct (optional.is_set (inode c1)); [rewrite Hiv|]; reflexivity. }
  assert (Hstat : forall st, stat_checks_pass c1 st = stat_checks_pass c2 st).
  { intros st. unfold stat_checks_pass, optional.empty. rewrite <- Hs, <- Hn.
    destruct (optional.is_set (size c1)), (optional.is_set (nlinks c1));
      try rewrite (Hsv eq_refl); try rewrite (Hnv eq_refl); reflexivity. }
  rewrite Hcheap. destruct (cheap_checks_pass c2 file); [|reflexivity].
  destruct (sys_stat path); [|rewrite Hstat]; reflexivity.
Qed.

Lemma same_settings_process c1 c2 name envp n :
  same_settings c1 c2 -> Process c1 name envp n = Process c2 name envp n.
Proof.
  intros (_ & _ & _ & _ & _ & Hexe). rewrite !process_run.
  unfold get_executable. rewrite Hexe. reflexivity.
Qed.

Lemma same_settings_walk c1 c2 envp d :
  same_settings c1 c2 ->
  forall path n, Walk c1 envp path d n = Walk c2 envp path d n.
Proof.
  intros Hsame.
  induction d as [errno | es cl IH] using dir_induction; intros path n.
  - reflexivity.
  - rewrite !recursive_walk_opened.
    apply bind_ext; [reflexivity|]. intros _ k.
    apply bind_ext; [|reflexivity].
    clear n. revert k. induction IH as [|[entry sub] rest Hsub _ IHrest]; intros k;
      [reflexivity|].
    cbn [walk_entries]. apply bind_ext; [|intros _; apply IHrest].
    unfold walk_entry. cbn [snd] in Hsub.
    destruct (d_type entry =? DT_DIR).
    + destruct (streq (d_name entry) "." || streq (d_name entry) "..");
        [reflexivity | apply Hsub].
    + apply bind_ext; [apply same_settings_matches; exact Hsame|].
      intros [|] j; [apply same_settings_process; exact Hsame | reflexivity].
Qed.

Lemma same_settings_with c1 c2 :
  same_settings c1 c2 ->
  same_settings (with_help c1) (with_help c2)
  /\ (forall v, same_settings (with_inode v c1) (with_inode v c2))
  /\ (forall v, same_settings (with_name v c1) (with_name v c2))
  /\ (forall v, same_settings (with_size v c1) (with_size v c2))
  /\ (forall v, same_settings (with_nlinks v c1) (with_nlinks v c2))
  /\ (forall v, same_settings (with_executable v c1) (with_executable v c2)).
Proof.
  intros (Hh & Hi & Hname & Hs & Hn & Hexe).
  unfold same_settings, same_optional. cbn.
  repeat split; try assumption; try reflexivity; try apply Hi; try apply Hs; try apply Hn.
Qed.

Lemma scan_options_same u1 u2 args :
  junk_type u1 = junk_type u2 ->
  forall c1 c2,
    same_settings c1 c2 ->
    match scan_options u1 args c1, scan_options u2 args c2 with
    | inl m1, inl m2 => m1 = m2
    | inr a, inr b => same_settings a b
    | _, _ => False
    end.
Proof.
  intros Hjunk.
  induction args as [|x|option value l IH] using list_pair_ind; intros c1 c2 Hsame;
    destruct (same_settings_with c1 c2 Hsame) as (Hh & Hi & Hname & Hs & Hn & Hexe).
  - exact Hsame.
  - cbn [scan_options]. destruct (streq x "-help"); [exact Hh | reflexivity].
  - cbn [scan_options]. rewrite Hjunk.
    destruct (streq option "-help"); [exact Hh|].
    destruct (streq option "-inum").
    { destruct (parse_num value option); [reflexivity | apply IH, Hi]. }
    destruct (streq option "-name"); [apply IH, Hname|].
    destruct (streq option "-size").
    { destruct (get_size (junk_type u2) value); [reflexivity | apply IH, Hs]. }
    destruct (streq option "-nlinks").
    { destruct (parse_num value option); [reflexivity | apply IH, Hn]. }
    destruct (streq option "-exec"); [apply IH, Hexe | reflexivity].
Qed.

(** X20: what the uninitialised [value] members of the three
    optionals hold never shows.  Two runs that differ only in that
    memory, the uninitialised comparator of [get_size] being the
    same, do the same thing: same events, same exit status. *)
Theorem unset_optionals_never_show u1 u2 argv envp n :
  junk_type u1 = junk_type u2 ->
  main strerror sys_stat sys_fork sys_execve sys_waitpid file_system u1 argv envp n =
  main strerror sys_stat sys_fork sys_execve sys_waitpid file_system u2 argv envp n.
Proof.
  intros Hjunk. unfold main.
  destruct (Z.of_nat (List.length argv) <? 2); [reflexivity|].
  assert (Hfresh : same_settings (fresh_configuration u1) (fresh_configuration u2)).
  { unfold same_settings, same_optional. cbn. repeat split; discriminate. }
  unfold configuration_ctor.
  destruct (streq (nth 1 argv "") "-help"); [reflexivity|].
  pose proof (scan_options_same u1 u2 (skipn 2 argv) Hjunk _ _ Hfresh) as Hscan.
  destruct (scan_options u1 (skipn 2 argv) (fresh_configuration u1)) as [m1|a],
           (scan_options u2 (skipn 2 argv) (fresh_configuration u2)) as [m2|b];
    try contradiction.
  - rewrite Hscan. reflexivity.
  - pose proof (same_settings_walk a b envp (file_system (nth 1 argv "")) Hscan
                  (nth 1 argv "") n) as Hwalk.
    unfold is_help. destruct Hscan as (Hh & _). rewrite <- Hh.
    destruct (help a); [reflexivity|].
    apply bind_ext; [exact Hwalk | reflexivity].
Qed.

End Properties.

(** * The claims in the small world *)

Import Example.

(** C1: the comparator of a size filter given as bare digits or with
    [=] is never assigned.  [get_size] returns whatever its local
    [type] held (first two parts), and only [+] and [-] fix the
    comparator (third part); on an entry whose lookup succeeds the
    matcher then follows the comparator it was given (fourth part).
    With [GREATER] left in that memory, [-size 100] becomes "more
    than 100": the entry of 100 bytes does not match and the entry of
    101 bytes does. *)
Theorem bare_size_comparator_is_unassigned :
  (forall uninit, get_size uninit "100" = inr (100, uninit))
  /\ (forall uninit, get_size uninit "=100" = inr (100, uninit))
  /\ (forall uninit,
        get_size uninit "+100" = inr (100, GREATER)
        /\ get_size uninit "-100" = inr (100, LESS))
  /\ (forall text st filter w file path n,
        result_of (matches text (fun _ => inr st)
                           (with_size filter (fresh_configuration w)) file path n) =
        done (size_holds filter (st_size st)))
  /\ configuration_ctor junk ["os-find"; "r"; "-size"; "100"] =
     inr (with_size (100, GREATER) plain)
  /\ sys_stat "r/a" = inr (mkstat 11 100 1)
  /\ result_of (matches strerror sys_stat (with_size (100, GREATER) plain)
                        entry_a "r/a" 0%nat) = done false
  /\ sys_stat "r/b" = inr (mkstat 12 101 2)
  /\ result_of (matches strerror sys_stat (with_size (100, GREATER) plain)
                        entry_b "r/b" 0%nat) = done true.
Proof.
  repeat split.
  intros text st filter w file path n.
  rewrite matches_result. unfold would_match, cheap_checks_pass, stat_checks_pass.
  cbn. rewrite andb_true_r. reflexivity.
Qed.

(** C2 fails as stated: with neither [-size] nor [-nlinks] the
    matcher still looks the status of the entry up. *)
Lemma stat_without_size_or_nlinks :
  ~ (In (ev_stat "r/a") (trace_of (matches strerror sys_stat plain entry_a "r/a" 0%nat))
     <-> negb (optional.empty (size plain)) || negb (optional.empty (nlinks plain)) = true).
Proof.
  intros [H _].
  assert (Hin : In (ev_stat "r/a")
                   (trace_of (matches strerror sys_stat plain entry_a "r/a" 0%nat)))
    by (left; reflexivity).
  apply H in Hin. discriminate Hin.
Qed.

(** C3 fails as stated: with no predicate, the symbolic link to
    nothing is not a directory and does not match. *)
Lemma dangling_link_does_not_match :
  ~ (no_predicate plain = true -> (d_type dangling =? DT_DIR) = false ->
     result_of (matches strerror sys_stat plain dangling "r/dangling" 0%nat) = done true).
Proof. intros H. specialize (H eq_refl eq_refl). discriminate H. Qed.

(** The amended C3 on the tree [r]: the three entries whose lookup
    succeeds are printed, the dangling link is not. *)
Lemma no_predicate_matches_when_stat_succeeds_witness :
  no_predicate plain = true
  /\ result_of (matches strerror sys_stat plain entry_a "r/a" 0%nat) = done true
  /\ dispatches (trace_of (recursive_walk strerror sys_stat fork_ok execve_ok waitpid_ok
                             plain envp "r" tree 0%nat)) = [tt; tt; tt]
  /\ stdout_of (trace_of (recursive_walk strerror sys_stat fork_ok execve_ok waitpid_ok
                            plain envp "r" tree 0%nat)) =
     ["r/a" ++ nl; "r/sub/c" ++ nl; "r/b" ++ nl]
  /\ no_predicate exec_config = true
  /\ dispatch_events (trace_of (recursive_walk strerror sys_stat fork_ok execve_ok waitpid_ok
                                  exec_config envp "r" tree 0%nat)) =
     [ev_fork (inr 100); ev_execve 100 "/bin/true" ["/bin/true"; "r/a"] envp;
      ev_waitpid 100 None;
      ev_fork (inr 101); ev_execve 101 "/bin/true" ["/bin/true"; "r/sub/c"] envp;
      ev_waitpid 101 None;
      ev_fork (inr 102); ev_execve 102 "/bin/true" ["/bin/true"; "r/b"] envp;
      ev_waitpid 102 None]
  /\ forks_of (recursive_walk strerror sys_stat fork_ok execve_ok waitpid_ok
                 exec_config envp "r" tree 0%nat) = 3%nat.
Proof.
  destruct (no_predicate_matches_when_stat_succeeds
              strerror sys_stat fork_ok execve_ok waitpid_ok
              plain envp entry_a "r/a" "r" tree 0%nat eq_refl)
    as (Hmatch & Hcount & Hlines & _).
  destruct (no_predicate_matches_when_stat_succeeds
              strerror sys_stat fork_ok execve_ok waitpid_ok
              exec_config envp entry_a "r/a" "r" tree 0%nat eq_refl)
    as (_ & _ & _ & Hevents & Hforks).
  split; [reflexivity|].
  split; [exact Hmatch|].
  split; [exact Hcount|].
  split; [exact Hlines|].
  split; [reflexivity|].
  split; [exact Hevents | exact Hforks].
Defined.



(** C5 fails as stated: when [fork] fails the dispatcher creates no
    child and waits for none. *)
Lemma failed_fork_creates_no_child :
  ~ (exists pid w,
        execve_calls (trace_of (process strerror fork_fails execve_ok waitpid_ok
                                  exec_config "r/a" envp 0%nat)) =
        [(pid, "/bin/true", ["/bin/true"; "r/a"], envp)]
        /\ waitpid_calls (trace_of (process strerror fork_fails execve_ok waitpid_ok
                                      exec_config "r/a" envp 0%nat)) = [(pid, w)]).
Proof. intros (pid & w & H & _). discriminate H. Qed.

(** The amended C5 on a dispatch that succeeds, one whose [fork]
    fails, and a walk with [-exec]. *)
Lemma dispatch_forks_once_and_waits_witness :
  get_executable exec_config = Some "/bin/true"
  /\ fork_calls (trace_of (process strerror fork_ok execve_ok waitpid_ok
                             exec_config "r/a" envp 0%nat)) = [inr 100]
  /\ execve_calls (trace_of (process strerror fork_ok execve_ok waitpid_ok
                               exec_config "r/a" envp 0%nat)) =
     [(100, "/bin/true", ["/bin/true"; "r/a"], envp)]
  /\ waitpid_calls (trace_of (process strerror fork_ok execve_ok waitpid_ok
                                exec_config "r/a" envp 0%nat)) = [(100, None)]
  /\ execve_calls (trace_of (process strerror fork_fails execve_ok waitpid_ok
                               exec_config "r/a" envp 0%nat)) = []
  /\ (peak_children 0 (trace_of (recursive_walk strerror sys_stat fork_ok execve_ok waitpid_ok
                                   exec_config envp "r" tree 0%nat)) <= 1)%nat.
Proof.
  destruct (dispatch_forks_once_and_waits
              strerror sys_stat fork_ok execve_ok waitpid_ok
              exec_config envp "r/a" "/bin/true" 0%nat eq_refl)
    as (Hforks & _ & Hchild & _ & _ & Hserial).
  destruct (dispatch_forks_once_and_waits
              strerror sys_stat fork_fails execve_ok waitpid_ok
              exec_config envp "r/a" "/bin/true" 0%nat eq_refl)
    as (_ & _ & _ & Hnone & _ & _).
  destruct (Hchild 100 eq_refl) as (Hexec & Hwait & _).
  split; [reflexivity|].
  split; [exact Hforks|].
  split; [exact Hexec|].
  split; [exact Hwait|].
  split; [exact (proj1 (Hnone EAGAIN eq_refl))|].
  exact (proj1 (Hserial (fun _ => eq_refl) tree "r" 0%nat)).
Defined.

(** C9 fails as stated: on a file system that reports no entry types
    the entry [.] is handed to the matcher, looked up and printed. *)
Lemma untyped_dot_entry_is_matched :
  ~ (is_dot "." = true ->
     ~ In (ev_stat "u/.") (trace_of (run ["os-find"; "u"]))
     /\ ~ In (ev_stdout ("u/." ++ nl)) (trace_of (run ["os-find"; "u"]))).
Proof.
  intros H. destruct (H eq_refl) as [Hstat _].
  apply Hstat. vm_compute. right; left; reflexivity.
Qed.

(** C6 fails as stated: [12abc] is not a well-formed unsigned
    integer, yet [-inum 12abc] is accepted as inode 12 and the walk
    takes place. *)
Lemma trailing_characters_are_accepted :
  ~ (unsigned_integer "12abc" = false ->
     result_of (run ["os-find"; "r"; "-inum"; "12abc"]) = done EXIT_FAILURE
     /\ opendir_calls (trace_of (run ["os-find"; "r"; "-inum"; "12abc"])) = []).
Proof. intros H. destruct (H eq_refl) as [Hexit _]. discriminate Hexit. Qed.

(** The amended C6 on [abc], on [12abc] and on a command line with
    [-inum abc]. *)
Lemma numeric_values_are_read_by_stoull_witness :
  (unreadable_number "abc" = true
   /\ parse_num "abc" "-inum" = inl "Value of -inum is invalid: abc, stoull")
  /\ (unsigned_integer "12" = true
      /\ isdigit (char_at "abc" 0) = false
      /\ digits_value 0 "12" <= ULLONG_MAX
      /\ parse_num "12abc" "-inum" = inr 12)
  /\ (streq "r" "-help" = false
      /\ scan_options junk ["-name"; "a"] plain = inr (with_name "a" plain)
      /\ help (with_name "a" plain) = false
      /\ run ["os-find"; "r"; "-name"; "a"; "-inum"; "abc"; "-exec"; "/bin/true"] =
         (done EXIT_FAILURE, 0%nat, [ev_stderr "Value of -inum is invalid: abc, stoull"])).
Proof.
  destruct (numeric_values_are_read_by_stoull
              strerror sys_stat fork_ok execve_ok waitpid_ok file_system junk
              "os-find" "r" ["-name"; "a"] "-inum" "abc" ["-exec"; "/bin/true"] envp
              (with_name "a" plain) 0%nat "-inum" "12" "abc")
    as (Hbad & Hgood & Hmain).
  split; [|split].
  - split; [reflexivity|]. exact (Hbad eq_refl).
  - split; [reflexivity|]. split; [reflexivity|].
    split; [vm_compute; discriminate|].
    apply Hgood; [reflexivity | reflexivity | vm_compute; discriminate].
  - split; [reflexivity|]. split; [reflexivity|]. split; [reflexivity|].
    exact (Hmain eq_refl eq_refl eq_refl (or_introl eq_refl) eq_refl).
Defined.

(** C7 fails as stated: [5x] is not in the grammar, yet [-size 5x]
    is accepted with the threshold 5 and the walk takes place. *)
Lemma size_with_trailing_characters_is_accepted :
  ~ (size_grammar "5x" = false ->
     result_of (run ["os-find"; "r"; "-size"; "5x"]) = done EXIT_FAILURE
     /\ opendir_calls (trace_of (run ["os-find"; "r"; "-size"; "5x"])) = []).
Proof. intros H. destruct (H eq_refl) as [Hexit _]. discriminate Hexit. Qed.

(** The amended C7 on [abc], on a command line with [-size abc] and
    on [+5x]. *)
Lemma malformed_size_values_are_rejected_witness :
  (size_rejected "abc" = true
   /\ exists msg, get_size GREATER "abc" = inl msg)
  /\ (streq "r" "-help" = false
      /\ scan_options junk ["-name"; "a"] plain = inr (with_name "a" plain)
      /\ help (with_name "a" plain) = false
      /\ exists msg,
          run ["os-find"; "r"; "-name"; "a"; "-size"; "abc"; "-exec"; "/bin/true"] =
          (done EXIT_FAILURE, 0%nat, [ev_stderr msg]))
  /\ (In "+" [""; "="; "+"; "-"]
      /\ unsigned_integer "5" = true
      /\ isdigit (char_at "x" 0) = false
      /\ digits_value 0 "5" <= ULLONG_MAX
      /\ exists type, get_size GREATER "+5x" = inr (wrap_s64 (digits_value 0 "5"), type)).
Proof.
  destruct (malformed_size_values_are_rejected
              strerror sys_stat fork_ok execve_ok waitpid_ok file_system junk
              "os-find" "r" ["-name"; "a"] "abc" ["-exec"; "/bin/true"] envp
              (with_name "a" plain) 0%nat GREATER "+" "5" "x")
    as (Hbad & _ & Hmain & Hgood).
  split; [|split].
  - split; [reflexivity|]. exact (Hbad eq_refl).
  - split; [reflexivity|]. split; [reflexivity|]. split; [reflexivity|].
    exact (Hmain eq_refl eq_refl eq_refl eq_refl).
  - split; [right; right; left; reflexivity|].
    split; [reflexivity|]. split; [reflexivity|].
    split; [vm_compute; discriminate|].
    apply Hgood; [right; right; left; reflexivity | reflexivity | reflexivity
                 | vm_compute; discriminate].
Defined.

(** C8 fails as stated: [-help] at an option position does not help
    when an option before it is turned down. *)
Lemma help_after_rejected_option :
  ~ (nth 4 ["os-find"; "r"; "-bogus"; "x"; "-help"] "" = "-help" ->
     run ["os-find"; "r"; "-bogus"; "x"; "-help"] =
     (done EXIT_SUCCESS, 0%nat, [ev_stdout usage])).
Proof. intros H. specialize (H eq_refl). discriminate H. Qed.

(** The amended C8 on [-help] after an accepted option pair and on
    a command line without arguments. *)
Lemma help_short_circuits_witness :
  (streq "r" "-help" = false
   /\ scan_options junk ["-name"; "a"] plain = inr (with_name "a" plain)
   /\ help (with_name "a" plain) = false
   /\ run ["os-find"; "r"; "-name"; "a"; "-help"; "-bogus"] =
      (done EXIT_SUCCESS, 0%nat, [ev_stdout usage]))
  /\ ((List.length ["os-find"] < 2)%nat
      /\ run ["os-find"] = (done EXIT_FAILURE, 0%nat, [ev_stdout usage])).
Proof.
  destruct (help_short_circuits
              strerror sys_stat fork_ok execve_ok waitpid_ok file_system junk
              "os-find" "r" ["-name"; "a"] ["-bogus"] ["os-find"] envp
              (with_name "a" plain) 0%nat)
    as (_ & Hoption & Hnone).
  split.
  - split; [reflexivity|]. split; [reflexivity|]. split; [reflexivity|].
    exact (Hoption eq_refl eq_refl eq_refl).
  - split; [repeat constructor|]. apply Hnone. repeat constructor.
Defined.


(** * The further properties in the small world *)

(** X1 on [-inum] left without its value. *)
Lemma option_without_value_is_an_error_witness :
  run ["os-find"; "r"; "-name"; "a"; "-inum"] =
  (done EXIT_FAILURE, 0%nat, [ev_stderr "Value of -inum wasn't found"]).
Proof.
  exact (option_without_value_is_an_error
           strerror sys_stat fork_ok execve_ok waitpid_ok file_system junk
           "os-find" "r" ["-name"; "a"] "-inum" envp (with_name "a" plain) 0%nat
           eq_refl eq_refl eq_refl eq_refl).
Defined.

(** X2 on the option [-type], which the program does not have. *)
Lemma unknown_option_is_an_error_witness :
  known_option "-type" = false
  /\ run ["os-find"; "r"; "-name"; "a"; "-type"; "f"; "-help"] =
     (done EXIT_FAILURE, 0%nat, [ev_stderr "Unknown option -type"]).
Proof.
  split; [reflexivity|].
  exact (unknown_option_is_an_error
           strerror sys_stat fork_ok execve_ok waitpid_ok file_system junk
           "os-find" "r" ["-name"; "a"] "-type" "f" ["-help"] envp
           (with_name "a" plain) 0%nat eq_refl eq_refl eq_refl eq_refl).
Defined.

(** X3 on [-name a -name b] and [-name a -exec /bin/true]. *)
Lemma last_name_and_exec_win_witness :
  configuration_ctor junk ["os-find"; "r"; "-name"; "a"; "-name"; "b"] =
    inr (with_name "b" (with_name "a" plain))
  /\ configuration_ctor junk ["os-find"; "r"; "-name"; "a"; "-exec"; "/bin/true"] =
     inr (with_executable "/bin/true" (with_name "a" plain)).
Proof.
  split.
  - exact (proj1 (last_name_and_exec_win junk "os-find" "r" ["-name"; "a"] "b"
                    (with_name "a" plain) eq_refl eq_refl eq_refl)).
  - exact (proj2 (last_name_and_exec_win junk "os-find" "r" ["-name"; "a"] "/bin/true"
                    (with_name "a" plain) eq_refl eq_refl eq_refl)).
Defined.

(** X4 on a root that does not exist: one diagnostic line, status 0. *)
Lemma accepted_command_line_exits_with_success_witness :
  run ["os-find"; "missing"] =
  (done 0, 0%nat,
   [ev_opendir "missing";
    ev_stderr ("Cannot open missing: No such file or directory" ++ nl)]).
Proof.
  exact (accepted_command_line_exits_with_success
           strerror sys_stat fork_ok execve_ok waitpid_ok file_system junk
           "os-find" "missing" [] envp plain 0%nat eq_refl eq_refl eq_refl).
Defined.

(** X5 on a bad [-size] value. *)
Lemma failing_run_does_nothing_else_witness :
  result_of (run ["os-find"; "r"; "-size"; "abc"]) = done EXIT_FAILURE
  /\ forks_of (run ["os-find"; "r"; "-size"; "abc"]) = 0%nat
  /\ (trace_of (run ["os-find"; "r"; "-size"; "abc"]) = [ev_stdout usage]
      \/ exists msg, trace_of (run ["os-find"; "r"; "-size"; "abc"]) = [ev_stderr msg]).
Proof.
  split; [reflexivity|].
  exact (failing_run_does_nothing_else
           strerror sys_stat fork_ok execve_ok waitpid_ok file_system junk
           ["os-find"; "r"; "-size"; "abc"] envp 0%nat eq_refl).
Defined.

(** X13 on [-5], which is read as 2^64 - 5. *)
Lemma parse_num_yields_uint64_witness :
  parse_num "-5" "-inum" = inr 18446744073709551611
  /\ 0 <= 18446744073709551611 <= ULLONG_MAX
  /\ wrap_u64 18446744073709551611 = 18446744073709551611.
Proof.
  split; [reflexivity|].
  exact (parse_num_yields_uint64 "-5" "-inum" 18446744073709551611 eq_refl).
Defined.

(** X14 on [+5] and [-5]. *)
Lemma parse_num_reads_a_sign_witness :
  parse_num "+5" "-nlinks" = inr 5
  /\ parse_num "-5" "-nlinks" = inr (2 ^ 64 - 5).
Proof.
  apply (parse_num_reads_a_sign "5" "-nlinks"); [reflexivity|].
  split; [reflexivity | vm_compute; discriminate].
Defined.

(** X15 on [+5x]. *)
Lemma get_size_comparator_and_threshold_witness :
  get_size EQUAL "+5x" = inr (5, GREATER)
  /\ - 2 ^ 63 <= 5 < 2 ^ 63
  /\ GREATER = GREATER
  /\ exists type', get_size LESS "+5x" = inr (5, type').
Proof.
  split; [reflexivity|].
  exact (get_size_comparator_and_threshold EQUAL LESS "+5x" 5 GREATER eq_refl).
Defined.

(** X16 on [-inum 12] and the entry [r/b], whose inode is 12. *)
Lemma inum_finds_that_inode_witness :
  exists config,
    configuration_ctor junk ["os-find"; "r"; "-inum"; "12"] = inr config
    /\ result_of (matches strerror sys_stat config entry_b "r/b" 0%nat) = done true.
Proof.
  apply (inum_finds_that_inode strerror sys_stat junk "os-find" "r" "12"
           entry_b "r/b" 0%nat);
    [reflexivity | reflexivity | vm_compute; discriminate].
Defined.

(** X17 on [-size +100] and [-size -100] and the entry [r/b] of 101
    bytes. *)
Lemma signed_size_filters_compare_strictly_witness :
  exists greater less,
    configuration_ctor junk ["os-find"; "r"; "-size"; "+100"] = inr greater
    /\ configuration_ctor junk ["os-find"; "r"; "-size"; "-100"] = inr less
    /\ result_of (matches strerror sys_stat greater entry_b "r/b" 0%nat) = done true
    /\ result_of (matches strerror sys_stat less entry_b "r/b" 0%nat) = done false.
Proof.
  apply (signed_size_filters_compare_strictly strerror sys_stat junk "os-find" "r" "100"
           entry_b "r/b" 0%nat);
    [reflexivity | reflexivity | reflexivity].
Defined.

(** X18 on the largest threshold, which becomes -1. *)
Lemma large_size_threshold_wraps_witness :
  get_size EQUAL "+18446744073709551615" = inr (-1, GREATER)
  /\ get_size EQUAL "-18446744073709551615" = inr (-1, LESS).
Proof.
  apply (large_size_threshold_wraps EQUAL "18446744073709551615"); [reflexivity|].
  split; vm_compute; discriminate.
Defined.

(** X19 on a directory [locked] between the files [a] and [b]. *)
Lemma unreadable_subdirectory_costs_one_line_witness :
  is_dot "locked" = false
  /\ exists before after,
      trace_of (recursive_walk strerror sys_stat fork_ok execve_ok waitpid_ok plain envp "r"
                  (opened ([file 11 "a"] ++ [file 12 "b"]) None) 0%nat) =
        (before ++ after)%list
      /\ trace_of (recursive_walk strerror sys_stat fork_ok execve_ok waitpid_ok plain envp "r"
                     (opened ([file 11 "a"] ++
                              (mkdirent 15 DT_DIR "locked", opendir_fails EACCES) ::
                              [file 12 "b"]) None) 0%nat) =
         (before ++
          [ev_opendir ("r" ++ "/" ++ "locked");
           ev_stderr ("Cannot open " ++ ("r" ++ "/" ++ "locked") ++ ": " ++
                      strerror EACCES ++ nl)] ++
          after)%list
      /\ forks_of (recursive_walk strerror sys_stat fork_ok execve_ok waitpid_ok plain envp "r"
                     (opened ([file 11 "a"] ++
                              (mkdirent 15 DT_DIR "locked", opendir_fails EACCES) ::
                              [file 12 "b"]) None) 0%nat) =
         forks_of (recursive_walk strerror sys_stat fork_ok execve_ok waitpid_ok plain envp "r"
                     (opened ([file 11 "a"] ++ [file 12 "b"]) None) 0%nat).
Proof.
  split; [reflexivity|].
  exact (unreadable_subdirectory_costs_one_line
           strerror sys_stat fork_ok execve_ok waitpid_ok plain envp "r"
           [file 11 "a"] [file 12 "b"] None 15 "locked" EACCES 0%nat eq_refl).
Defined.

(** X20 on two memories and [-size +100]. *)
Lemma unset_optionals_never_show_witness :
  junk_type junk = junk_type other_junk
  /\ main strerror sys_stat fork_ok execve_ok waitpid_ok file_system junk
          ["os-find"; "r"; "-size"; "+100"] envp 0%nat =
     main strerror sys_stat fork_ok execve_ok waitpid_ok file_system other_junk
          ["os-find"; "r"; "-size"; "+100"] envp 0%nat.
Proof.
  split; [reflexivity|].
  exact (unset_optionals_never_show
           strerror sys_stat fork_ok execve_ok waitpid_ok file_system junk other_junk
           ["os-find"; "r"; "-size"; "+100"] envp 0%nat eq_refl).
Defined.
